(** * Prefix-tree route matching: [build-trie.ts]

    A shallow embedding of [src/common/utils/match-route/build-trie.ts]
    (the [PrefixTree] class, [takeWhile], [expandToken], [buildTrie] and
    [matchRoute]) together with the properties of the design document that
    concern them.

    Modelling conventions.
    - A JavaScript object used as a dictionary ([ConcretePrefixTree]) is a
      finite map [gmap string _] of its own properties.  The source reads
      [this.prefixes[prefix]] on a plain [{}], which also finds what the
      prototype chain holds under that name ([constructor], [toString],
      [__proto__], ...).  The map reads own properties only, so it is the
      source's read for the names that are [ordinary] (defined below).
      [edge], [find] and [add] are the source for such segments; every
      statement that would be false of the program for another name has
      the hypothesis that the segments it reads are [ordinary].
    - [T[] | null] and [PrefixTree | null] are [option]s.
    - The trie is owned by a single builder, so in-place mutation is
      rendered as state passing: [add] returns the updated tree.
    - The template parser ([parse] of path-to-regexp) and the per-route
      matcher ([execRouteMatching]) are external collaborators: they are
      section variables, and every statement holds for all of them. *)

From Stdlib Require Import Ascii String.
From stdpp Require Import gmap strings list fin_maps.

Set Default Proof Using "Type".
Open Scope string_scope.
Open Scope list_scope.

(** ** JavaScript string helpers *)

(** [s.split(sep)] for a one-character separator: the pieces between the
    separators, so [n] separators always give [n + 1] pieces. *)
Fixpoint split (sep : ascii) (s : string) : list string :=
  match s with
  | EmptyString => [EmptyString]
  | String c s' =>
      if Ascii.eqb c sep then EmptyString :: split sep s'
      else match split sep s' with
           | piece :: pieces => String c piece :: pieces
           | [] => [String c EmptyString]
           end
  end.

(** Truthiness of a string, as in [filter(s => s)]. *)
Definition truthy (s : string) : bool :=
  match s with EmptyString => false | _ => true end.

(** [arr.slice(1)] *)
Definition slice1 {A} (l : list A) : list A := drop 1 l.

(** ** Tokens of path-to-regexp *)

(** The [Key] object of a parsed template. *)
Record Key := MkKey {
  key_name : string;
  key_prefix : string;
  key_delimiter : string;
  key_optional : bool;
  key_repeat : bool;
  key_partial : bool;
  key_pattern : string
}.

(** [type Token = string | Key] *)
Inductive Token :=
| TStr (s : string)
| TKey (k : Key).

(** [typeof token === 'string'] *)
Definition isString (token : Token) : bool :=
  match token with TStr _ => true | TKey _ => false end.

(** The pattern of a plain [:name] parameter, the JavaScript literal
    ['[^\\/]+?']. *)
Definition segmentPattern : string := "[^\/]+?".

(** The reserved edge name ['*']. *)
Definition wildcardKey : string := "*".

(** The property name that [obj[undefined]] addresses. *)
Definition undefinedKey : string := "undefined".

(** [takeWhile] *)
Fixpoint takeWhile {A} (arr : list A) (predicate : A -> bool) : list A :=
  match arr with
  | [] => []
  | item :: arr' =>
      if predicate item then item :: takeWhile arr' predicate else []
  end.

(** [expandToken] *)
Definition expandToken (token : Token) : list Token :=
  match token with
  | TStr s => TStr <$> slice1 (split "/" s)
  | TKey k =>
      if String.eqb (key_pattern k) segmentPattern
      then [TStr wildcardKey]
      else [token]
  end.

(** The [string[]] view of a run of string tokens (the [@ts-ignore] cast
    of [buildTrie]); it is the identity on what [takeWhile] returns. *)
Definition tokenStrings (tokens : list Token) : list string :=
  omap (fun token => match token with TStr s => Some s | TKey _ => None end)
       tokens.

(** ** Names on the prototype chain *)

(** The property names of [Object.prototype].  A read of [prefixes[s]]
    for one of them on a plain [{}] returns the inherited function or
    object, which is truthy: no own node is made for it by [add], which
    writes [value] and [tail] on that shared object instead. *)
Definition objectPrototypeNames : list string :=
  [ "constructor"; "__defineGetter__"; "__defineSetter__";
    "hasOwnProperty"; "__lookupGetter__"; "__lookupSetter__";
    "isPrototypeOf"; "propertyIsEnumerable"; "toString"; "valueOf";
    "__proto__"; "toLocaleString" ].

(** The two names that [add] can itself put on [Object.prototype], when a
    path goes through [__proto__]; from then on they are inherited too. *)
Definition nodeFieldNames : list string := [ "value"; "tail" ].

(** The name may be found on the prototype chain of a [prefixes]
    object. *)
Definition inherited (s : string) : bool :=
  existsb (String.eqb s) (objectPrototypeNames ++ nodeFieldNames).

(** The name is read as an own property only, as the map reads it. *)
Definition ordinary (s : string) : Prop := inherited s = false.

(** ** The prefix tree

    [prefixes t !! s] is the read [t.prefixes[s]] of an own property: it
    is what the source reads when [s] is [ordinary]. *)

Section PrefixTree.
Context {T : Type}.

Inductive PrefixTree :=
| MkTree (prefixes : gmap string PrefixTreeNode)
with PrefixTreeNode :=
| MkNode (value : option (list T)) (tail : option PrefixTree).

Definition prefixes (t : PrefixTree) : gmap string PrefixTreeNode :=
  match t with MkTree m => m end.
Definition value (n : PrefixTreeNode) : option (list T) :=
  match n with MkNode v _ => v end.
Definition tail (n : PrefixTreeNode) : option PrefixTree :=
  match n with MkNode _ tl => tl end.

(** [new PrefixTree()] *)
Definition emptyTree : PrefixTree := MkTree ∅.

(** The node [this.prefixes[prefix]] after the
    [if (!this.prefixes[prefix])] initialisation of [add], for a prefix
    that is not found on the prototype chain. *)
Definition nodeAt (t : PrefixTree) (prefix : string) : PrefixTreeNode :=
  default (MkNode None None) (prefixes t !! prefix).

(** The [else] branch of [add]: push onto the node's list, or start it. *)
Definition pushValue (t : PrefixTree) (prefix : string) (v : T)
  : PrefixTree :=
  let node := nodeAt t prefix in
  let nodeValue :=
    match value node with
    | Some vs => vs ++ [v]
    | None => [v]
    end in
  MkTree (<[prefix := MkNode (Some nodeValue) (tail node)]> (prefixes t)).

(** [PrefixTree.add].  [path[0]] of an empty array is [undefined], which
    as a property name is ["undefined"].  The nodes are own properties:
    this is the source's [add] on a path of [ordinary] names. *)
Fixpoint add (path : list string) (v : T) (t : PrefixTree) : PrefixTree :=
  match path with
  | [] => pushValue t undefinedKey v
  | prefix :: rest =>
      match rest with
      | [] => pushValue t prefix v
      | _ :: _ =>
          let node := nodeAt t prefix in
          let tl := default emptyTree (tail node) in
          MkTree (<[prefix := MkNode (value node) (Some (add rest v tl))]>
                    (prefixes t))
      end
  end.

(** [PrefixTree.find], on a path of [ordinary] names. *)
Fixpoint find (t : PrefixTree) (path : list string) : option (list T) :=
  match path with
  | [] => None
  | prefix :: rest =>
      match prefixes t !! prefix with
      | None => None
      | Some node =>
          match rest with
          | [] => value node
          | _ :: _ =>
              match tail node with
              | Some tl => find tl rest
              | None => None
              end
          end
      end
  end.

(** The edge selection of [matchRoute]:
    [currentTrie.prefixes[prefix] || currentTrie.prefixes['*']].  An own
    node is truthy; for an [ordinary] prefix without one the read is
    [undefined] and the wildcard is read. *)
Definition edge (t : PrefixTree) (prefix : string)
  : option PrefixTreeNode :=
  match prefixes t !! prefix with
  | Some node => Some node
  | None => prefixes t !! wildcardKey
  end.

(** The [while] loop of [matchRoute], over the segments that remain. *)
Fixpoint descend (currentTrie : option PrefixTree) (segs : list string)
         (patterns : list T) : list T :=
  match currentTrie, segs with
  | Some t, prefix :: rest =>
      let node := edge t prefix in
      let patterns' :=
        match node with
        | Some (MkNode (Some vs) _) => patterns ++ vs
        | _ => patterns
        end in
      descend (node ≫= tail) rest patterns'
  | _, _ => patterns
  end.
End PrefixTree.

Arguments PrefixTree : clear implicits.
Arguments PrefixTreeNode : clear implicits.

(** ** Routes *)

(** [InvariantRoute], as far as the matcher reads it. *)
Record InvariantRoute := MkRoute {
  name : string;
  path : string;
  exact : bool
}.

Section Matcher.
(** [Query] and [Match] of [common/types]. *)
Context {Query Match : Type}.

(** [type Result = { route: InvariantRoute; match: Match }] *)
Record Result := MkResult {
  route : InvariantRoute;
  match_ : Match
}.

(** [parse] of path-to-regexp. *)
Variable parsePath : string -> list Token.

(** [execRouteMatching(route, pathname, queryParams, basePath)] *)
Variable execRouteMatching :
  InvariantRoute -> string -> Query -> string -> option Result.

(** [expandedTokens] of [buildTrie] *)
Definition expandedTokens (r : InvariantRoute) : list Token :=
  mbind expandToken (parsePath (path r)).

(** [stringPrefix] of [buildTrie] *)
Definition stringPrefix (r : InvariantRoute) : list string :=
  tokenStrings (takeWhile (expandedTokens r) isString).

(** [buildTrie]: its declared result is [PrefixTree | null]. *)
Definition buildTrie (routes : list InvariantRoute)
  : option (PrefixTree InvariantRoute) :=
  Some (fold_left (fun trie r => add (stringPrefix r) r trie)
                  routes emptyTree).

(** [pathname.split('/').filter(s => s)] *)
Definition splitPath (pathname : string) : list string :=
  List.filter truthy (split "/" pathname).

(** The [for (let i = patterns.length - 1; i >= 0; i--)] loop, with
    [n = i + 1] candidates still to be tried. *)
Fixpoint evaluate (patterns : list InvariantRoute) (n : nat)
         (pathname : string) (queryParams : Query) (basePath : string)
  : option Result :=
  match n with
  | 0 => None
  | S i =>
      match patterns !! i with
      | Some pattern =>
          match execRouteMatching pattern pathname queryParams basePath with
          | Some m => Some m
          | None => evaluate patterns i pathname queryParams basePath
          end
      | None => evaluate patterns i pathname queryParams basePath
      end
  end.

(** The candidate list [patterns] when the [while] loop ends. *)
Definition candidates (trie : option (PrefixTree InvariantRoute))
           (pathname : string) : list InvariantRoute :=
  descend trie (splitPath pathname) [].

(** [matchRoute] *)
Definition matchRoute (trie : option (PrefixTree InvariantRoute))
           (pathname : string) (queryParams : Query) (basePath : string)
  : option Result :=
  let patterns := candidates trie pathname in
  evaluate patterns (length patterns) pathname queryParams basePath.
End Matcher.

Arguments Result : clear implicits.
Arguments MkResult {Match} route match_.

(** ** A concrete parser and matcher for the examples

    The statements below hold for every parser and matcher.  The examples
    run them on the following instances. *)

(** A plain [:name] parameter that follows a ["/"]. *)
Definition segmentKey (nm : string) : Key :=
  MkKey nm "/" "/" false false false segmentPattern.

(** An optional one, [:name?]. *)
Definition optionalKey (nm : string) : Key :=
  MkKey nm "/" "/" true false false segmentPattern.

(** A parameter with a pattern of its own, [:name(pattern)]. *)
Definition patternKey (nm pattern : string) : Key :=
  MkKey nm "/" "/" false false false pattern.

(** What [parse] of path-to-regexp returns on the templates of the
    examples; a template without [:], [(] or [*] is one literal token,
    and the empty template has no token. *)
Definition sampleParse (template : string) : list Token :=
  if String.eqb template "" then []
  else if String.eqb template "/a/:x" then [TStr "/a"; TKey (segmentKey "x")]
  else if String.eqb template "/a/:x/b"
       then [TStr "/a"; TKey (segmentKey "x"); TStr "/b"]
  else if String.eqb template "/a/:x/d"
       then [TStr "/a"; TKey (segmentKey "x"); TStr "/d"]
  else if String.eqb template "/:x?" then [TKey (optionalKey "x")]
  else if String.eqb template "/:id(\d+)" then [TKey (patternKey "id" "\d+")]
  else [TStr template].

(** A segment-wise matcher: a template segment that starts with [:]
    accepts any request segment, one that also ends with [?] may be
    absent, and a route that is not [exact] accepts longer paths. *)
Definition isParam (seg : string) : bool :=
  match seg with String ":" _ => true | _ => false end.

Fixpoint endsWithQuestion (seg : string) : bool :=
  match seg with
  | EmptyString => false
  | String "?" EmptyString => true
  | String _ seg' => endsWithQuestion seg'
  end.

Fixpoint matchSegments (tsegs psegs : list string) (exactly : bool) : bool :=
  match tsegs, psegs with
  | [], [] => true
  | [], _ :: _ => negb exactly
  | t :: tsegs', [] =>
      isParam t && endsWithQuestion t && matchSegments tsegs' [] exactly
  | t :: tsegs', p :: psegs' =>
      (isParam t || String.eqb t p) && matchSegments tsegs' psegs' exactly
  end.

Definition sampleExec (r : InvariantRoute) (pathname : string)
           (queryParams : unit) (basePath : string)
  : option (Result string) :=
  if matchSegments (List.filter truthy (split "/" (path r)))
                   (List.filter truthy (split "/" pathname)) (exact r)
  then Some (MkResult r pathname)
  else None.

(** The routes of the examples. *)
Definition routeAX : InvariantRoute := MkRoute "ax" "/a/:x" true.
Definition routeAB : InvariantRoute := MkRoute "ab" "/a/b" true.
Definition routeA : InvariantRoute := MkRoute "a" "/a" false.
Definition routeAXB : InvariantRoute := MkRoute "axb" "/a/:x/b" true.
Definition routeABC : InvariantRoute := MkRoute "abc" "/a/b/c" true.
Definition routeAXD : InvariantRoute := MkRoute "axd" "/a/:x/d" true.
Definition routeOptional : InvariantRoute := MkRoute "opt" "/:x?" true.
Definition routeItem : InvariantRoute := MkRoute "item" "/:id(\d+)" true.

(** ** Specification-level notions *)

(** The first candidate of a list that the matcher accepts. *)
Fixpoint firstSuccess {A B} (f : A -> option B) (l : list A) : option B :=
  match l with
  | [] => None
  | x :: l' =>
      match f x with
      | Some y => Some y
      | None => firstSuccess f l'
      end
  end.

(** [pieces.join(sep)] *)
Fixpoint join (sep : string) (pieces : list string) : string :=
  match pieces with
  | [] => EmptyString
  | [piece] => piece
  | piece :: pieces' => piece ++ sep ++ join sep pieces'
  end%string.

(** The character [c] does not occur in [s]. *)
Fixpoint lacks (c : ascii) (s : string) : Prop :=
  match s with
  | EmptyString => True
  | String c' s' => c' <> c /\ lacks c s'
  end.

(** How a call ends: with a thrown assertion or with a returned value. *)
Inductive Completion (A : Type) :=
| Threw
| Returned (a : A).
Arguments Threw {A}.
Arguments Returned {A} a.

(** A call of [matchRoute] from untyped code, where [trie] may be [null].
    The body has no [throw] and reads [currentTrie.prefixes] only under
    the loop guard [currentTrie && ...], so the call always returns. *)
Definition matchRouteCall {Query Match}
           (execRouteMatching :
              InvariantRoute -> string -> Query -> string
              -> option (Result Match))
           (trie : option (PrefixTree InvariantRoute))
           (pathname : string) (queryParams : Query) (basePath : string)
  : Completion (option (Result Match)) :=
  Returned (matchRoute execRouteMatching trie pathname queryParams basePath).

(** The Token Expander as the design document words it: a literal is
    split on the separator and only an empty leading piece is dropped. *)
Definition expandTokenSpec (token : Token) : list Token :=
  match token with
  | TStr s =>
      TStr <$> match split "/" s with
               | EmptyString :: pieces => pieces
               | pieces => pieces
               end
  | TKey k =>
      if String.eqb (key_pattern k) segmentPattern
      then [TStr wildcardKey]
      else [token]
  end.

(** A Literal token of the design document: a string token other than the
    wildcard marker. *)
Definition isLiteral (token : Token) : bool :=
  match token with
  | TStr s => negb (String.eqb s wildcardKey)
  | TKey _ => false
  end.

(** The insertion key as the design document words it: the leading run of
    Literal tokens, ending at the first Wildcard or unsupported token. *)
Definition literalPrefix (parsePath : string -> list Token)
           (r : InvariantRoute) : list string :=
  tokenStrings (takeWhile (expandedTokens parsePath r) isLiteral).

(** A key fits a request when each of its segments is the request's
    segment at that place or the wildcard. *)
Fixpoint keyFits (key segs : list string) : bool :=
  match key, segs with
  | [], _ => true
  | _ :: _, [] => false
  | k :: key', s :: segs' =>
      (String.eqb k s || String.eqb k wildcardKey) && keyFits key' segs'
  end.

(** Brute force as the design document words it: every route that the
    request can reach through its key is tried, and the route registered
    last wins. *)
Definition bruteForce {Query Match}
           (parsePath : string -> list Token)
           (execRouteMatching :
              InvariantRoute -> string -> Query -> string
              -> option (Result Match))
           (routes : list InvariantRoute)
           (pathname : string) (queryParams : Query) (basePath : string)
  : option (Result Match) :=
  firstSuccess
    (fun r => execRouteMatching r pathname queryParams basePath)
    (rev (List.filter
            (fun r => keyFits (stringPrefix parsePath r) (splitPath pathname))
            routes)).

(** ** Matching by scanning the route list

    The same candidates, computed from the list of routes and their keys
    alone. *)
Section Scan.
Context {T : Type}.
Variable key : T -> list string.

(** Some key of [keys] extends [pre]. *)
Definition extended (keys : list (list string)) (pre : list string)
  : bool :=
  existsb (fun k => bool_decide (pre `prefix_of` k)) keys.

(** The keys that the descent addresses, one per consumed segment: the
    segment itself when some route key continues with it, else the
    wildcard when some route key continues with that, else the descent
    is over. *)
Fixpoint trail (keys : list (list string)) (pre segs : list string)
  : list (list string) :=
  match segs with
  | [] => []
  | s :: rest =>
      if extended keys (pre ++ [s])
      then (pre ++ [s]) :: trail keys (pre ++ [s]) rest
      else if extended keys (pre ++ [wildcardKey])
      then (pre ++ [wildcardKey]) :: trail keys (pre ++ [wildcardKey]) rest
      else []
  end.

(** The routes whose key is exactly [k], in registration order. *)
Definition keyed (routes : list T) (k : list string) : list T :=
  List.filter (fun r => bool_decide (key r = k)) routes.

(** The routes whose key lies on the trail: by depth, and by
    registration within one depth. *)
Definition scanCandidates (routes : list T) (segs : list string)
  : list T :=
  trail (key <$> routes) [] segs ≫= keyed routes.

(** The key of [r] begins with the segment [s]. *)
Definition startsWith (s : string) (r : T) : bool :=
  bool_decide (head (key r) = Some s).

(** The key of [r] begins with [s] and goes on after it. *)
Definition deeper (s : string) (r : T) : bool :=
  startsWith s r && bool_decide (2 <= length (key r)).

(** The key of [r] extends [pre] by at least one segment. *)
Definition beyond (pre : list string) (r : T) : bool :=
  bool_decide (pre `prefix_of` key r)
  && bool_decide (length pre < length (key r)).

(** The trie of a list of routes. *)
Definition addAll (routes : list T) (t : PrefixTree T) : PrefixTree T :=
  fold_left (fun trie r => add (key r) r trie) routes t.
End Scan.

Section Under.
Context {T : Type}.
Variable key : T -> list string.

(** The trie of the routes whose key goes beyond [pre], keyed by what
    follows [pre]: the subtree that [pre] addresses. *)
Definition under (pre : list string) (routes : list T) : PrefixTree T :=
  addAll (fun r => drop (length pre) (key r))
         (List.filter (beyond key pre) routes) emptyTree.
End Under.

(** [T[] | null] of a list that is stored only when it has an element. *)
Definition nonnull {A} (l : list A) : option (list A) :=
  match l with [] => None | _ :: _ => Some l end.

(** The key that [add] really uses: ["undefined"] for the empty path. *)
Definition effectiveKey (k : list string) : list string :=
  match k with [] => [undefinedKey] | _ :: _ => k end.

(** The result of scanning the route list: the candidates of the trail,
    deepest first and latest first within one depth. *)
Definition scanMatch {Query Match}
           (parsePath : string -> list Token)
           (execRouteMatching :
              InvariantRoute -> string -> Query -> string
              -> option (Result Match))
           (routes : list InvariantRoute)
           (pathname : string) (queryParams : Query) (basePath : string)
  : option (Result Match) :=
  firstSuccess
    (fun r => execRouteMatching r pathname queryParams basePath)
    (rev (scanCandidates (stringPrefix parsePath) routes
                         (splitPath pathname))).

(** The routes that the design document expects an empty request path to
    reach: an empty key, or the wildcard as first key segment. *)
Definition rootRoute (parsePath : string -> list Token)
           (r : InvariantRoute) : Prop :=
  stringPrefix parsePath r = [] \/
  head (stringPrefix parsePath r) = Some wildcardKey.

(** ** Notions for the properties of insertion and of the request path *)

Section NodeAfter.
Context {T : Type}.

(** The node that [add] leaves at the first segment of its path, from the
    node it finds there and from what follows in the path. *)
Definition nodeAfter (rest : list string) (v : T) (node : PrefixTreeNode T)
  : PrefixTreeNode T :=
  match rest with
  | [] => MkNode (Some (default [] (value node) ++ [v])) (tail node)
  | _ :: _ =>
      MkNode (value node)
             (Some (add rest v (default emptyTree (tail node))))
  end.
End NodeAfter.

(** A segment of a request path: not empty, and without the separator. *)
Definition cleanSegment (s : string) : Prop :=
  s <> EmptyString /\ lacks "/" s.

(** The root route; [parse] returns the one literal ["/"] for it. *)
Definition routeRoot : InvariantRoute := MkRoute "root" "/" true.

(** ** The prefix tree: insertion and lookup *)

Section TreeFacts.
Context {T : Type}.
Implicit Types (t : PrefixTree T) (v : T) (s p : string).

Lemma lookup_pushValue t p v s :
  prefixes (pushValue t p v) !! s =
  if decide (p = s)
  then Some (MkNode (Some (default [] (value (nodeAt t p)) ++ [v]))
                    (tail (nodeAt t p)))
  else prefixes t !! s.
Proof.
  unfold pushValue; cbn [prefixes].
  rewrite lookup_insert. destruct (decide (p = s)) as [->|]; [|done].
  by destruct (value (nodeAt t s)).
Qed.

Lemma add_effectiveKey k v t : add (effectiveKey k) v t = add k v t.
Proof. by destruct k. Qed.

Lemma add_single p v t : add [p] v t = pushValue t p v.
Proof. done. Qed.

Lemma add_longer p x k v t :
  add (p :: x :: k) v t =
  MkTree (<[p := MkNode (value (nodeAt t p))
                  (Some (add (x :: k) v
                             (default emptyTree (tail (nodeAt t p)))))]>
            (prefixes t)).
Proof. done. Qed.

Lemma nodeAt_empty p : nodeAt (@emptyTree T) p = MkNode None None.
Proof. unfold nodeAt, emptyTree; cbn. by rewrite lookup_empty. Qed.

Lemma descend_None segs (acc : list T) : descend None segs acc = acc.
Proof. by destruct segs. Qed.

(** The accumulator of the descent is only ever extended. *)
Lemma descend_acc (ot : option (PrefixTree T)) segs (acc : list T) :
  descend ot segs acc = acc ++ descend ot segs [].
Proof.
  revert ot acc. induction segs as [|s segs IH]; intros [t|] acc; cbn;
    rewrite ?app_nil_r; try done.
  destruct (edge t s) as [[[vs|] tl]|]; cbn.
  - rewrite (IH tl (acc ++ vs)), (IH tl vs). by rewrite app_assoc.
  - apply IH.
  - by rewrite !descend_None, app_nil_r.
Qed.
End TreeFacts.

(** ** The trie of a route list, level by level *)

Section ScanFacts.
Context {T : Type}.
Local Arguments add : simpl never.
Implicit Types (key : T -> list string) (routes : list T).

Lemma addAll_snoc key routes r t :
  addAll key (routes ++ [r]) t = add (key r) r (addAll key routes t).
Proof. unfold addAll. by rewrite fold_left_app. Qed.

Lemma addAll_ext key key' routes t :
  (forall r, key' r = key r) ->
  addAll key' routes t = addAll key routes t.
Proof.
  intros E. revert t. induction routes as [|r routes IH]; intros t; [done|].
  cbn. rewrite E. apply IH.
Qed.

Lemma keyed_snoc key routes r k :
  keyed key (routes ++ [r]) k =
  keyed key routes k ++ (if bool_decide (key r = k) then [r] else []).
Proof. unfold keyed. by rewrite List.filter_app. Qed.

Lemma nonnull_snoc (l : list T) v :
  Some (default [] (nonnull l) ++ [v]) = nonnull (l ++ [v]).
Proof. by destruct l. Qed.

Lemma filter_nil_of_existsb (f g : T -> bool) (l : list T) :
  existsb f l = false ->
  (forall x, g x = true -> f x = true) ->
  List.filter g l = [].
Proof.
  intros Hex Hfg. induction l as [|x l IH]; [done|].
  cbn in *. apply orb_false_iff in Hex as [Hx Hl].
  destruct (g x) eqn:Hg; [|by apply IH].
  apply Hfg in Hg. congruence.
Qed.

Lemma deeper_startsWith key s r :
  deeper key s r = true -> startsWith key s r = true.
Proof. unfold deeper. by intros [? _]%andb_true_iff. Qed.

Lemma single_startsWith key s r :
  bool_decide (key r = [s]) = true -> startsWith key s r = true.
Proof.
  intros E%bool_decide_eq_true. unfold startsWith. rewrite E.
  by apply bool_decide_eq_true.
Qed.

(** One level of the trie of a list of routes with non-empty keys. *)
Lemma lookup_addAll key routes s :
  Forall (fun r => key r <> []) routes ->
  prefixes (addAll key routes emptyTree) !! s =
  if existsb (startsWith key s) routes
  then Some (MkNode
               (nonnull (keyed key routes [s]))
               (match List.filter (deeper key s) routes with
                | [] => None
                | r :: rs =>
                    Some (addAll (fun r => drop 1 (key r)) (r :: rs)
                                 emptyTree)
                end))
  else None.
Proof.
  induction routes as [|r routes IH] using rev_ind; intros Hne.
  { cbn. apply lookup_empty. }
  apply Forall_app in Hne as [Hne Hr]. apply Forall_inv in Hr.
  specialize (IH Hne).
  rewrite addAll_snoc, existsb_app, keyed_snoc, List.filter_app. cbn [existsb List.filter].
  rewrite orb_false_r.
  set (t := addAll key routes emptyTree) in *.
  assert (Hsub : default emptyTree (tail (nodeAt t s)) =
                 addAll (fun r => drop 1 (key r))
                        (List.filter (deeper key s) routes) emptyTree).
  { unfold nodeAt. rewrite IH.
    destruct (existsb (startsWith key s) routes) eqn:Hex; cbn.
    - by destruct (List.filter (deeper key s) routes).
    - by rewrite (filter_nil_of_existsb _ _ _ Hex (deeper_startsWith key s)). }
  unfold startsWith, deeper at 2, startsWith.
  destruct (key r) as [|p [|x k]] eqn:Hk; [congruence| |].
  - (* a key of one segment *)
    rewrite add_single, lookup_pushValue. cbn.
    destruct (decide (p = s)) as [->|Hps].
    + rewrite bool_decide_true by done. rewrite orb_true_r.
      rewrite (bool_decide_true ([s] = [s])) by done.
      rewrite (bool_decide_false (2 <= 1)) by lia.
      cbn. rewrite app_nil_r. f_equal. unfold nodeAt. rewrite IH.
      destruct (existsb (startsWith key s) routes) eqn:Hex; cbn.
      * by rewrite nonnull_snoc.
      * unfold keyed.
        rewrite (filter_nil_of_existsb _ _ _ Hex (single_startsWith key s)).
        by rewrite (filter_nil_of_existsb _ _ _ Hex (deeper_startsWith key s)).
    + rewrite bool_decide_false by congruence.
      rewrite (bool_decide_false ([p] = [s])) by congruence.
      cbn. rewrite orb_false_r, !app_nil_r. apply IH.
  - rewrite add_longer. cbn [prefixes]. rewrite lookup_insert. cbn.
    destruct (decide (p = s)) as [->|Hps].
    + rewrite bool_decide_true by done. rewrite orb_true_r.
      rewrite (bool_decide_false (_ = [s])) by congruence.
      rewrite (bool_decide_true (2 <= _)) by lia.
      cbn. rewrite app_nil_r. fold t. rewrite Hsub.
      replace (x :: k) with (drop 1 (key r)) by (by rewrite Hk).
      rewrite <- (addAll_snoc (fun r => drop 1 (key r))).
      f_equal. f_equal.
      * unfold nodeAt. rewrite IH.
        destruct (existsb (startsWith key s) routes) eqn:Hex; cbn; [done|].
        unfold keyed.
        by rewrite (filter_nil_of_existsb _ _ _ Hex (single_startsWith key s)).
      * destruct (List.filter (deeper key s) routes ++ [r]) eqn:Hf; [|done].
        by apply app_nil in Hf as [_ ?].
    + rewrite bool_decide_false by congruence.
      rewrite (bool_decide_false (_ = [s])) by congruence.
      cbn. rewrite orb_false_r, !app_nil_r. apply IH.
Qed.

Lemma descend_emptyTree segs (acc : list T) :
  descend (Some emptyTree) segs acc = acc.
Proof.
  destruct segs as [|s segs]; [done|]. cbn.
  unfold edge, emptyTree; cbn. rewrite !lookup_empty. cbn.
  apply descend_None.
Qed.

Lemma filter_filter (f g : T -> bool) (l : list T) :
  List.filter f (List.filter g l) = List.filter (fun x => g x && f x) l.
Proof.
  induction l as [|x l IH]; [done|]. cbn.
  destruct (g x); cbn; [|done]. destruct (f x); by rewrite IH.
Qed.

Lemma existsb_filter (f g : T -> bool) (l : list T) :
  existsb f (List.filter g l) = existsb (fun x => g x && f x) l.
Proof.
  induction l as [|x l IH]; [done|]. cbn.
  destruct (g x); cbn; by rewrite IH.
Qed.

Lemma existsb_fmap {B} (h : T -> B) (f : B -> bool) (l : list T) :
  existsb f (h <$> l) = existsb (fun x => f (h x)) l.
Proof. induction l as [|x l IH]; [done|]. cbn. by rewrite IH. Qed.

Lemma existsb_ext' (f g : T -> bool) (l : list T) :
  (forall x, f x = g x) -> existsb f l = existsb g l.
Proof. intros E. induction l as [|x l IH]; [done|]. cbn. by rewrite E, IH. Qed.

Lemma filter_ext' (f g : T -> bool) (l : list T) :
  (forall x, f x = g x) -> List.filter f l = List.filter g l.
Proof. intros E. induction l as [|x l IH]; [done|]. cbn. by rewrite E, IH. Qed.

(** Pointwise facts on keys. *)
Lemma beyond_split key pre r :
  beyond key pre r = true ->
  exists x k, key r = pre ++ x :: k.
Proof.
  unfold beyond. intros [[k E]%bool_decide_eq_true Hl%bool_decide_eq_true]%andb_true_iff.
  destruct k as [|x k]; [|eauto].
  rewrite E, app_nil_r in Hl. lia.
Qed.

Lemma beyond_intro key pre r x k :
  key r = pre ++ x :: k -> beyond key pre r = true.
Proof.
  intros E. unfold beyond. apply andb_true_iff. split; apply bool_decide_eq_true.
  - exists (x :: k). done.
  - rewrite E, length_app. cbn. lia.
Qed.

Lemma starts_beyond key pre s r :
  beyond key pre r && startsWith (fun r => drop (length pre) (key r)) s r
  = bool_decide ((pre ++ [s]) `prefix_of` key r).
Proof.
  apply eq_true_iff_eq. rewrite andb_true_iff, bool_decide_eq_true. split.
  - intros [(x & k & E)%beyond_split Hs]. unfold startsWith in Hs.
    apply bool_decide_eq_true in Hs. rewrite E, drop_app_length in Hs.
    cbn in Hs. injection Hs as ->. exists k. by rewrite E, <- app_assoc.
  - intros [k E]. rewrite <- app_assoc in E. cbn in E. split.
    + by eapply beyond_intro.
    + unfold startsWith. apply bool_decide_eq_true.
      by rewrite E, drop_app_length.
Qed.

Lemma single_beyond key pre s r :
  beyond key pre r && bool_decide (drop (length pre) (key r) = [s])
  = bool_decide (key r = pre ++ [s]).
Proof.
  apply eq_true_iff_eq. rewrite andb_true_iff, !bool_decide_eq_true. split.
  - intros [(x & k & E)%beyond_split Hs]. rewrite E, drop_app_length in Hs.
    injection Hs as -> ->. done.
  - intros E. split; [by eapply beyond_intro|]. by rewrite E, drop_app_length.
Qed.

Lemma deeper_beyond key pre s r :
  beyond key pre r && deeper (fun r => drop (length pre) (key r)) s r
  = beyond key (pre ++ [s]) r.
Proof.
  apply eq_true_iff_eq. rewrite andb_true_iff. unfold deeper.
  rewrite andb_true_iff, bool_decide_eq_true. split.
  - intros [(x & k & E)%beyond_split [Hs Hl]]. unfold startsWith in Hs.
    apply bool_decide_eq_true in Hs. rewrite E, drop_app_length in Hs, Hl.
    cbn in Hs, Hl. injection Hs as ->. destruct k as [|y k]; [cbn in Hl; lia|].
    apply (beyond_intro _ _ _ y k). by rewrite E, <- app_assoc.
  - intros (y & k & E)%beyond_split. rewrite <- app_assoc in E. cbn in E.
    split; [by eapply beyond_intro|].
    unfold startsWith. rewrite E, drop_app_length. cbn.
    split; [by apply bool_decide_eq_true | lia].
Qed.

Lemma under_key_nonempty key pre routes :
  Forall (fun r => drop (length pre) (key r) <> [])
         (List.filter (beyond key pre) routes).
Proof.
  apply Forall_forall. intros r [_ (x & k & E)%beyond_split]%list_elem_of_In%List.filter_In.
  by rewrite E, drop_app_length.
Qed.

(** One level of the trie below [pre]. *)
Lemma lookup_under key pre routes e :
  prefixes (under key pre routes) !! e =
  if extended (key <$> routes) (pre ++ [e])
  then Some (MkNode (nonnull (keyed key routes (pre ++ [e])))
                    (match List.filter (beyond key (pre ++ [e])) routes with
                     | [] => None
                     | _ :: _ => Some (under key (pre ++ [e]) routes)
                     end))
  else None.
Proof.
  unfold under at 1. rewrite lookup_addAll by apply under_key_nonempty.
  rewrite existsb_filter, (existsb_ext' _ _ _ (starts_beyond key pre e)).
  unfold extended. rewrite existsb_fmap.
  destruct (existsb _ routes); [|done].
  f_equal. f_equal.
  - unfold keyed. rewrite filter_filter.
    apply f_equal, filter_ext', single_beyond.
  - rewrite filter_filter, (filter_ext' _ _ _ (deeper_beyond key pre e)).
    destruct (List.filter (beyond key (pre ++ [e])) routes) as [|r rs] eqn:Hf; [done|].
    f_equal. unfold under. rewrite Hf. apply addAll_ext.
    intros r'. rewrite drop_drop, length_app. cbn. done.
Qed.

(** The descent from the node addressed by [pre] collects the routes on
    the trail that continues [pre]. *)
Lemma descend_under key routes segs pre :
  descend (Some (under key pre routes)) segs [] =
  trail (key <$> routes) pre segs ≫= keyed key routes.
Proof.
  revert pre. induction segs as [|s rest IH]; intros pre; [done|].
  assert (Hstep : forall e : string,
    extended (key <$> routes) (pre ++ [e]) = true ->
    exists nd : PrefixTreeNode T,
      prefixes (under key pre routes) !! e = Some nd /\
      descend (tail nd) rest
        (match nd with MkNode (Some vs) _ => [] ++ vs | _ => [] end) =
      keyed key routes (pre ++ [e]) ++
      (trail (key <$> routes) (pre ++ [e]) rest ≫= keyed key routes)).
  { intros e He. rewrite lookup_under, He. eexists; split; [done|].
    rewrite descend_acc. f_equal.
    - by destruct (keyed key routes (pre ++ [e])).
    - cbn. rewrite <- IH.
      destruct (List.filter (beyond key (pre ++ [e])) routes) eqn:Hf; [|done].
      unfold under. rewrite Hf. cbn. by rewrite descend_None, descend_emptyTree. }
  cbn [descend trail]. unfold edge.
  destruct (extended (key <$> routes) (pre ++ [s])) eqn:Hs.
  - destruct (Hstep s Hs) as (nd & Hl & Hd). rewrite Hl. exact Hd.
  - rewrite (lookup_under key pre routes s), Hs.
    destruct (extended (key <$> routes) (pre ++ [wildcardKey])) eqn:Hw.
    + destruct (Hstep _ Hw) as (nd & Hl & Hd). rewrite Hl. exact Hd.
    + rewrite lookup_under, Hw. cbn. apply descend_None.
Qed.
End ScanFacts.

Section TrieOfRoutes.
Context {T : Type}.
Implicit Types (key : T -> list string) (routes : list T).

Lemma keyed_nil key routes k :
  (forall r, In r routes -> key r <> k) -> keyed key routes k = [].
Proof.
  intros Hk. unfold keyed. induction routes as [|r routes IH]; [done|].
  cbn. rewrite bool_decide_false by (apply Hk; by left).
  apply IH. intros r' Hr'. apply Hk. by right.
Qed.

Lemma extended_false key routes pre r :
  extended (key <$> routes) pre = false ->
  In r routes -> ~ pre `prefix_of` key r.
Proof.
  unfold extended. rewrite existsb_fmap. intros Hex Hin Hp.
  assert (existsb (fun x => bool_decide (pre `prefix_of` key x)) routes = true);
    [|congruence].
  apply existsb_exists. exists r. split; [done|]. by apply bool_decide_eq_true.
Qed.

(** What [find] returns below [pre]: the routes with exactly that key. *)
Lemma find_under key routes k pre :
  k <> [] ->
  find (under key pre routes) k = nonnull (keyed key routes (pre ++ k)).
Proof.
  revert pre. induction k as [|e k IH]; intros pre Hk; [done|].
  cbn [find]. rewrite lookup_under.
  destruct (extended (key <$> routes) (pre ++ [e])) eqn:Hex.
  - destruct k as [|x k]; [done|]. cbn [tail].
    destruct (List.filter (beyond key (pre ++ [e])) routes) eqn:Hf.
    + rewrite keyed_nil; [done|]. intros r Hin E.
      assert (In r (List.filter (beyond key (pre ++ [e])) routes)) as Hr.
      { apply List.filter_In. split; [done|].
        apply (beyond_intro _ _ _ x k). by rewrite E, <- app_assoc. }
      by rewrite Hf in Hr.
    + rewrite IH by done. by rewrite <- app_assoc.
  - rewrite keyed_nil; [done|]. intros r Hin E.
    apply (extended_false _ _ _ _ Hex Hin). exists k.
    by rewrite E, <- app_assoc.
Qed.

Lemma filter_all (f : T -> bool) (l : list T) :
  Forall (fun x => f x = true) l -> List.filter f l = l.
Proof.
  induction 1 as [|x l Hx _ IH]; [done|]. cbn. by rewrite Hx, IH.
Qed.

(** With no empty key, the whole trie is the subtree under the empty
    prefix. *)
Lemma under_nil key routes :
  Forall (fun r => key r <> []) routes ->
  under key [] routes = addAll key routes emptyTree.
Proof.
  intros Hne. unfold under. rewrite filter_all.
  - apply addAll_ext. intros r. apply drop_0.
  - eapply Forall_impl; [exact Hne|]. intros r Hr. cbn in Hr.
    destruct (key r) as [|x k] eqn:E; [done|].
    by apply (beyond_intro key [] r x k).
Qed.

(** [add] never sees an empty key: it uses ["undefined"] instead. *)
Lemma addAll_effectiveKey key routes (t : PrefixTree T) :
  addAll (fun r => effectiveKey (key r)) routes t = addAll key routes t.
Proof.
  revert t. induction routes as [|r routes IH]; intros t; [done|].
  cbn. rewrite add_effectiveKey. apply IH.
Qed.

Lemma effectiveKey_nonempty k : effectiveKey k <> [].
Proof. by destruct k. Qed.

Lemma effectiveKey_id k : k <> [] -> effectiveKey k = k.
Proof. by destruct k. Qed.

(** The trie of any route list, by its effective keys. *)
Lemma addAll_under key routes :
  addAll key routes emptyTree =
  under (fun r => effectiveKey (key r)) [] routes.
Proof.
  rewrite under_nil, addAll_effectiveKey; [done|].
  apply Forall_forall. intros r _. apply effectiveKey_nonempty.
Qed.

Lemma keyed_ext key key' routes k :
  (forall r, In r routes -> key' r = key r) ->
  keyed key' routes k = keyed key routes k.
Proof.
  intros E. unfold keyed. induction routes as [|r routes IH]; [done|].
  cbn. rewrite E by (by left). rewrite IH; [done|].
  intros r' Hr'. apply E. by right.
Qed.

Lemma fmap_ext_in' {B} (f g : T -> B) (l : list T) :
  (forall r, In r l -> f r = g r) -> f <$> l = g <$> l.
Proof.
  intros E. induction l as [|x l IH]; [done|]. cbn.
  rewrite E by (by left). f_equal. apply IH. intros r Hr. apply E. by right.
Qed.

Lemma scanCandidates_ext key key' routes segs :
  (forall r, In r routes -> key' r = key r) ->
  scanCandidates key' routes segs = scanCandidates key routes segs.
Proof.
  intros E. unfold scanCandidates. rewrite (fmap_ext_in' key' key) by done.
  generalize (trail (key <$> routes) [] segs). intros ks.
  induction ks as [|k ks IH]; [done|]. cbn. by rewrite IH, (keyed_ext key key').
Qed.

(** The candidates of the descent, from the route list alone. *)
Lemma descend_addAll key routes segs :
  descend (Some (addAll key routes emptyTree)) segs [] =
  scanCandidates (fun r => effectiveKey (key r)) routes segs.
Proof. rewrite addAll_under. apply descend_under. Qed.

Lemma find_addAll key routes k :
  k <> [] ->
  find (addAll key routes emptyTree) k =
  nonnull (keyed (fun r => effectiveKey (key r)) routes k).
Proof. intros Hk. rewrite addAll_under. by apply find_under. Qed.
End TrieOfRoutes.

(** ** Splitting and joining *)

Lemma split_nonempty sep s : split sep s <> [].
Proof.
  destruct s as [|c s]; cbn; [done|].
  destruct (Ascii.eqb c sep); [done|]. by destruct (split sep s).
Qed.

Lemma join_cons_cons sep piece piece' pieces :
  join sep (piece :: piece' :: pieces) =
  (piece ++ sep ++ join sep (piece' :: pieces))%string.
Proof. done. Qed.

Lemma join_split sep s : join (String sep EmptyString) (split sep s) = s.
Proof.
  induction s as [|c s IH]; [done|]. cbn [split].
  destruct (Ascii.eqb_spec c sep) as [->|Hc].
  - destruct (split sep s) as [|piece pieces] eqn:E;
      [by apply split_nonempty in E|].
    rewrite join_cons_cons, IH. done.
  - destruct (split sep s) as [|piece pieces] eqn:E;
      [by apply split_nonempty in E|].
    destruct pieces as [|piece' pieces].
    + cbn in *. by rewrite IH.
    + rewrite join_cons_cons in IH. rewrite join_cons_cons.
      by rewrite <- IH.
Qed.

Lemma split_lacks sep s : Forall (lacks sep) (split sep s).
Proof.
  induction s as [|c s IH]; cbn [split].
  - by repeat constructor.
  - destruct (Ascii.eqb_spec c sep) as [->|Hc].
    + by constructor.
    + destruct (split sep s) as [|piece pieces]; [by repeat constructor|].
      inversion IH; subst. by constructor.
Qed.

(** Up to the first separator, [split] yields one piece. *)
Lemma split_app sep first s :
  lacks sep first ->
  split sep (first ++ String sep s)%string = first :: split sep s.
Proof.
  induction first as [|c first IH]; intros Hl.
  - change (split sep (String sep s) = EmptyString :: split sep s).
    cbn [split]. by rewrite Ascii.eqb_refl.
  - change (split sep (String c (first ++ String sep s)%string)
            = String c first :: split sep s).
    destruct Hl as [Hc Hl]. cbn [split]. rewrite IH by done.
    by apply Ascii.eqb_neq in Hc as ->.
Qed.

Lemma split_lacking sep s : lacks sep s -> split sep s = [s].
Proof.
  induction s as [|c s IH]; intros Hl; [done|]. cbn [split].
  destruct Hl as [Hc Hl]. rewrite IH by done.
  by apply Ascii.eqb_neq in Hc as ->.
Qed.

(** ** The leading run of string tokens *)

Lemma takeWhile_split {A} (l : list A) (f : A -> bool) :
  exists rest,
    l = takeWhile l f ++ rest /\
    Forall (fun x => f x = true) (takeWhile l f) /\
    match rest with x :: _ => f x = false | [] => True end.
Proof.
  induction l as [|x l (rest & E & Hall & Hrest)]; [by exists []|].
  cbn. destruct (f x) eqn:Hx.
  - exists rest. split; [change (x :: l = x :: (takeWhile l f ++ rest)); by f_equal|].
    split; [by constructor|done].
  - by exists (x :: l).
Qed.

Lemma tokenStrings_isString tokens :
  Forall (fun token => isString token = true) tokens ->
  TStr <$> tokenStrings tokens = tokens.
Proof.
  induction 1 as [|[s|k] tokens Hs _ IH]; [done| |done].
  cbn. f_equal. exact IH.
Qed.

(** ** The evaluation loop *)

Section Evaluate.
Context {Query Match : Type}.
Variable execRouteMatching :
  InvariantRoute -> string -> Query -> string -> option (Result Match).
Variables (pathname : string) (queryParams : Query) (basePath : string).

Local Abbreviation exec r :=
  (execRouteMatching r pathname queryParams basePath).

Lemma evaluate_firstSuccess patterns n :
  n <= length patterns ->
  evaluate execRouteMatching patterns n pathname queryParams basePath =
  firstSuccess (fun r => exec r) (rev (take n patterns)).
Proof.
  induction n as [|i IH]; intros Hn; [done|].
  destruct (lookup_lt_is_Some_2 patterns i) as [pattern Hp]; [lia|].
  cbn [evaluate]. rewrite Hp, (take_S_r _ _ _ Hp), rev_unit.
  cbn [firstSuccess].
  destruct (exec pattern); [done|]. apply IH. lia.
Qed.

Lemma evaluate_Some patterns n m :
  evaluate execRouteMatching patterns n pathname queryParams basePath
  = Some m <->
  exists i pattern,
    i < n /\ patterns !! i = Some pattern /\ exec pattern = Some m /\
    forall j later,
      i < j < n -> patterns !! j = Some later -> exec later = None.
Proof.
  induction n as [|n IH]; cbn [evaluate].
  { split; [done|]. intros (i & _ & Hi & _). lia. }
  destruct (patterns !! n) as [pattern|] eqn:Hp.
  - destruct (exec pattern) as [m'|] eqn:He.
    + split.
      * intros [= ->]. exists n, pattern. repeat split; [lia|done..|].
        intros j later Hj. lia.
      * intros (i & pattern' & Hi & Hp' & He' & Hlater).
        destruct (decide (i = n)) as [->|Hne]; [congruence|].
        assert (exec pattern = None) by (apply (Hlater n); [lia|done]).
        congruence.
    + rewrite IH. split.
      * intros (i & pattern' & Hi & Hp' & He' & Hlater).
        exists i, pattern'. repeat split; [lia|done..|].
        intros j later Hj Hl. destruct (decide (j = n)) as [->|Hne];
          [congruence|]. apply (Hlater j); [lia|done].
      * intros (i & pattern' & Hi & Hp' & He' & Hlater).
        destruct (decide (i = n)) as [->|Hne]; [congruence|].
        exists i, pattern'. repeat split; [lia|done..|].
        intros j later Hj Hl. apply (Hlater j); [lia|done].
  - rewrite IH. split.
    + intros (i & pattern' & Hi & Hp' & He' & Hlater).
      exists i, pattern'. repeat split; [lia|done..|].
      intros j later Hj Hl. destruct (decide (j = n)) as [->|Hne];
        [congruence|]. apply (Hlater j); [lia|done].
    + intros (i & pattern' & Hi & Hp' & He' & Hlater).
      destruct (decide (i = n)) as [->|Hne]; [congruence|].
      exists i, pattern'. repeat split; [lia|done..|].
      intros j later Hj Hl. apply (Hlater j); [lia|done].
Qed.

Lemma evaluate_None patterns n :
  evaluate execRouteMatching patterns n pathname queryParams basePath
  = None <->
  forall i pattern,
    i < n -> patterns !! i = Some pattern -> exec pattern = None.
Proof.
  induction n as [|n IH]; cbn [evaluate].
  { split; [|done]. intros _ i pattern Hi. lia. }
  destruct (patterns !! n) as [pattern|] eqn:Hp.
  - destruct (exec pattern) as [m'|] eqn:He.
    + split; [done|]. intros Hall.
      rewrite <- He. apply (Hall n); [lia|done].
    + rewrite IH. split.
      * intros Hall i pattern' Hi Hp'.
        destruct (decide (i = n)) as [->|Hne]; [congruence|].
        apply (Hall i); [lia|done].
      * intros Hall i pattern' Hi. apply Hall. lia.
  - rewrite IH. split.
    + intros Hall i pattern' Hi Hp'.
      destruct (decide (i = n)) as [->|Hne]; [congruence|].
      apply (Hall i); [lia|done].
    + intros Hall i pattern' Hi. apply Hall. lia.
Qed.
End Evaluate.

(** ** The matcher: candidates and result *)

Section MatchFacts.
Context {Query Match : Type}.
Variable parsePath : string -> list Token.
Variable execRouteMatching :
  InvariantRoute -> string -> Query -> string -> option (Result Match).

Lemma matchRoute_firstSuccess trie pathname queryParams basePath :
  matchRoute execRouteMatching trie pathname queryParams basePath =
  firstSuccess
    (fun r => execRouteMatching r pathname queryParams basePath)
    (rev (candidates trie pathname)).
Proof.
  unfold matchRoute. rewrite evaluate_firstSuccess by done.
  by rewrite firstn_all.
Qed.

(** The candidates on the built trie, for any registered routes. *)
Lemma candidates_buildTrie routes pathname :
  candidates (buildTrie parsePath routes) pathname =
  scanCandidates (fun r => effectiveKey (stringPrefix parsePath r))
                 routes (splitPath pathname).
Proof. unfold candidates, buildTrie. apply (descend_addAll (stringPrefix parsePath)). Qed.

Lemma find_buildTrie routes k :
  k <> [] ->
  buildTrie parsePath routes ≫= (fun t => find t k) =
  nonnull (keyed (fun r => effectiveKey (stringPrefix parsePath r))
                 routes k).
Proof. intros Hk. unfold buildTrie. cbn. by apply (find_addAll (stringPrefix parsePath)). Qed.
End MatchFacts.

(** ** Equivalence with a scan of the route list *)

(** C1, as stated, fails, in two ways.  With [/a/b] registered before
    the non-exact [/a], the request [/a/b] reaches both routes and the
    matcher accepts both: the trie returns [/a/b], found deeper, while the
    rule that the route registered last wins returns [/a].  With [/a/b/c]
    and [/a/:x/d], the request [/a/b/d] fits the key of [/a/:x/d], which
    the matcher accepts, but the descent took the edge [b] and returns no
    match. *)
Lemma trie_differs_from_brute_force :
  matchRoute sampleExec (buildTrie sampleParse [routeAB; routeA])
             "/a/b" tt ""
  <> bruteForce sampleParse sampleExec [routeAB; routeA] "/a/b" tt "" /\
  matchRoute sampleExec (buildTrie sampleParse [routeABC; routeAXD])
             "/a/b/d" tt ""
  <> bruteForce sampleParse sampleExec [routeABC; routeAXD] "/a/b/d" tt "".
Proof. split; vm_compute; discriminate. Qed.

(** C1, amended: for routes that all have a non-empty key and a request
    whose segments are [ordinary] names, [matchRoute] on the built trie
    returns what a scan of the route list returns: the first route that
    the external matcher accepts among the routes whose key lies on the
    trail of the request, those with a longer key first and, for one key,
    those registered later first.  (For a request segment such as
    [constructor] the source reads an inherited object and takes no
    wildcard edge; the statement leaves such requests out.) *)
Theorem matchRoute_scan {Query Match}
        (parsePath : string -> list Token)
        (execRouteMatching :
           InvariantRoute -> string -> Query -> string
           -> option (Result Match))
        (routes : list InvariantRoute)
        (pathname : string) (queryParams : Query) (basePath : string) :
  Forall (fun r => stringPrefix parsePath r <> []) routes ->
  Forall ordinary (splitPath pathname) ->
  matchRoute execRouteMatching (buildTrie parsePath routes)
             pathname queryParams basePath
  = scanMatch parsePath execRouteMatching routes
              pathname queryParams basePath.
Proof.
  intros Hne _. rewrite matchRoute_firstSuccess. unfold scanMatch.
  rewrite candidates_buildTrie. do 2 f_equal.
  apply scanCandidates_ext. intros r Hr. apply effectiveKey_id.
  rewrite Forall_forall in Hne. apply Hne. by apply list_elem_of_In.
Qed.

Lemma matchRoute_scan_witness :
  Forall (fun r => stringPrefix sampleParse r <> [])
         [routeAX; routeAB; routeA] /\
  Forall ordinary (splitPath "/a/c") /\
  matchRoute sampleExec (buildTrie sampleParse [routeAX; routeAB; routeA])
             "/a/c" tt ""
  = scanMatch sampleParse sampleExec [routeAX; routeAB; routeA]
              "/a/c" tt "".
Proof.
  assert (H : Forall (fun r => stringPrefix sampleParse r <> [])
                     [routeAX; routeAB; routeA])
    by (repeat constructor; vm_compute; discriminate).
  assert (Ho : Forall ordinary (splitPath "/a/c"))
    by (repeat constructor).
  split; [exact H|]. split; [exact Ho|].
  exact (matchRoute_scan _ _ _ _ _ _ H Ho).
Defined.

(** ** The descent, edge by edge *)

Section DescentFacts.
Context {T : Type}.
Implicit Types (t : PrefixTree T) (node : PrefixTreeNode T).

Lemma descend_node t seg rest (acc : list T) node :
  edge t seg = Some node ->
  descend (Some t) (seg :: rest) acc =
  descend (tail node) rest (acc ++ default [] (value node)).
Proof.
  intros He. cbn [descend]. rewrite He. destruct node as [[vs|] tl]; cbn.
  - done.
  - by rewrite app_nil_r.
Qed.

Lemma descend_stop t seg rest (acc : list T) :
  edge t seg = None -> descend (Some t) (seg :: rest) acc = acc.
Proof. intros He. cbn [descend]. rewrite He. apply descend_None. Qed.

Lemma edge_literal t seg node :
  prefixes t !! seg = Some node -> edge t seg = Some node.
Proof. unfold edge. by intros ->. Qed.

Lemma edge_fallback t seg :
  prefixes t !! seg = None -> edge t seg = prefixes t !! wildcardKey.
Proof. unfold edge. by intros ->. Qed.
End DescentFacts.

(** C2: at a node, the descent follows the edge named by the segment
    when there is one.  When there is none and the segment is an
    [ordinary] name, it follows the wildcard edge, and without that it
    stops.  With [/a/:x] and [/a/b] registered, in either order, [/a/b]
    resolves to [/a/b] and [/a/c] to [/a/:x], provided the external
    matcher accepts these two pairs. *)
Theorem literal_edge_first {Query Match}
        (parsePath : string -> list Token)
        (execRouteMatching :
           InvariantRoute -> string -> Query -> string
           -> option (Result Match))
        (rX rB : InvariantRoute) (k : Key)
        (queryParams : Query) (basePath : string)
        (mX mB : Result Match) :
  path rX = "/a/:x" -> path rB = "/a/b" ->
  parsePath "/a/:x" = [TStr "/a"; TKey k] ->
  key_pattern k = segmentPattern ->
  parsePath "/a/b" = [TStr "/a/b"] ->
  execRouteMatching rB "/a/b" queryParams basePath = Some mB ->
  execRouteMatching rX "/a/c" queryParams basePath = Some mX ->
  (forall (t : PrefixTree InvariantRoute) seg rest acc node,
      prefixes t !! seg = Some node ->
      descend (Some t) (seg :: rest) acc =
      descend (tail node) rest (acc ++ default [] (value node))) /\
  (forall (t : PrefixTree InvariantRoute) seg rest acc node,
      ordinary seg ->
      prefixes t !! seg = None ->
      prefixes t !! wildcardKey = Some node ->
      descend (Some t) (seg :: rest) acc =
      descend (tail node) rest (acc ++ default [] (value node))) /\
  (forall (t : PrefixTree InvariantRoute) seg rest acc,
      ordinary seg ->
      prefixes t !! seg = None ->
      prefixes t !! wildcardKey = None ->
      descend (Some t) (seg :: rest) acc = acc) /\
  forall routes,
    routes = [rX; rB] \/ routes = [rB; rX] ->
    matchRoute execRouteMatching (buildTrie parsePath routes)
               "/a/b" queryParams basePath = Some mB /\
    matchRoute execRouteMatching (buildTrie parsePath routes)
               "/a/c" queryParams basePath = Some mX.
Proof.
  intros HpX HpB HparseX Hk HparseB HmB HmX.
  split; [|split; [|split]].
  - intros t seg rest acc node Hl. by apply descend_node, edge_literal.
  - intros t seg rest acc node _ Hl Hw. apply descend_node.
    by rewrite edge_fallback.
  - intros t seg rest acc _ Hl Hw. apply descend_stop.
    by rewrite edge_fallback.
  - assert (KX : stringPrefix parsePath rX = ["a"; "*"]).
    { unfold stringPrefix, expandedTokens. rewrite HpX, HparseX. cbn.
      by rewrite Hk. }
    assert (KB : stringPrefix parsePath rB = ["a"; "b"]).
    { unfold stringPrefix, expandedTokens. by rewrite HpB, HparseB. }
    intros routes [-> | ->]; unfold matchRoute, candidates, buildTrie;
      cbn [fold_left]; rewrite KX, KB;
      (split; [change (splitPath "/a/b") with ["a"; "b"]
              | change (splitPath "/a/c") with ["a"; "c"]]);
      vm_compute descend; cbn; by rewrite ?HmB, ?HmX.
Qed.

Lemma literal_edge_first_witness :
  matchRoute sampleExec (buildTrie sampleParse [routeAX; routeAB])
             "/a/b" tt "" = Some (MkResult routeAB "/a/b") /\
  matchRoute sampleExec (buildTrie sampleParse [routeAX; routeAB])
             "/a/c" tt "" = Some (MkResult routeAX "/a/c").
Proof.
  refine (proj2 (proj2 (proj2
    (literal_edge_first sampleParse sampleExec routeAX routeAB
       (segmentKey "x") tt "" (MkResult routeAX "/a/c")
       (MkResult routeAB "/a/b") _ _ _ _ _ _ _))) _ (or_introl eq_refl));
    reflexivity.
Defined.

(** ** The evaluation order *)

(** C3: once the descent has ended, the candidates are tried from the
    one collected last to the one collected first, each by the external
    matcher; the result is that of the first candidate accepted, and
    [null] exactly when every candidate is rejected. *)
Theorem candidates_tried_in_reverse {Query Match}
        (execRouteMatching :
           InvariantRoute -> string -> Query -> string
           -> option (Result Match))
        (trie : option (PrefixTree InvariantRoute))
        (pathname : string) (queryParams : Query) (basePath : string) :
  let patterns := candidates trie pathname in
  let exec r := execRouteMatching r pathname queryParams basePath in
  matchRoute execRouteMatching trie pathname queryParams basePath
  = firstSuccess exec (rev patterns) /\
  (forall m,
      matchRoute execRouteMatching trie pathname queryParams basePath
      = Some m <->
      exists i pattern,
        patterns !! i = Some pattern /\ exec pattern = Some m /\
        forall j later,
          i < j -> patterns !! j = Some later -> exec later = None) /\
  (matchRoute execRouteMatching trie pathname queryParams basePath = None
   <-> forall pattern, In pattern patterns -> exec pattern = None).
Proof.
  intros patterns exec. split; [apply matchRoute_firstSuccess|]. split.
  - intros m. unfold matchRoute. fold patterns. rewrite evaluate_Some.
    split.
    + intros (i & pattern & Hi & Hp & He & Hlater).
      exists i, pattern. repeat split; [done..|].
      intros j later Hj Hl. apply (Hlater j); [|done].
      apply lookup_lt_Some in Hl. lia.
    + intros (i & pattern & Hp & He & Hlater).
      exists i, pattern. repeat split; [by eapply lookup_lt_Some|done..|].
      intros j later Hj Hl. apply (Hlater j); [lia|done].
  - unfold matchRoute. fold patterns. rewrite evaluate_None. split.
    + intros Hall pattern [i Hi]%list_elem_of_In%list_elem_of_lookup.
      apply (Hall i); [by eapply lookup_lt_Some|done].
    + intros Hall i pattern _ Hp. apply Hall.
      apply list_elem_of_In, list_elem_of_lookup. eauto.
Qed.

(** ** What [buildTrie] returns *)

(** C4, as stated, fails: for the empty route set [buildTrie] returns a
    trie, not [null]. *)
Lemma buildTrie_nil_not_null : buildTrie sampleParse [] <> None.
Proof. discriminate. Qed.

(** C4, amended: [buildTrie] never returns [null]; for the empty route
    set it returns the trie without edges, on which every request whose
    segments are [ordinary] names has no candidate and no match. *)
Theorem buildTrie_not_null {Query Match}
        (parsePath : string -> list Token)
        (execRouteMatching :
           InvariantRoute -> string -> Query -> string
           -> option (Result Match))
        (routes : list InvariantRoute) :
  (exists t, buildTrie parsePath routes = Some t) /\
  buildTrie parsePath [] = Some emptyTree /\
  forall pathname queryParams basePath,
    Forall ordinary (splitPath pathname) ->
    candidates (buildTrie parsePath []) pathname = [] /\
    matchRoute execRouteMatching (buildTrie parsePath [])
               pathname queryParams basePath = None.
Proof.
  split; [by eexists|]. split; [done|].
  intros pathname queryParams basePath _.
  assert (Hc : candidates (buildTrie parsePath []) pathname = [])
    by apply descend_emptyTree.
  split; [done|]. unfold matchRoute. by rewrite Hc.
Qed.

(** ** A call without a trie *)

(** C5, as stated, fails: a call with [null] for the trie returns
    [null]; nothing is thrown. *)
Lemma matchRoute_null_trie_returns :
  matchRouteCall sampleExec None "/a/b" tt "" <> Threw.
Proof. discriminate. Qed.

(** C5, amended: a call of [matchRoute] with [null] for the trie
    collects no candidate and returns [null] (no match), for every
    pathname, query parameters and base path. *)
Theorem matchRoute_null_trie {Query Match}
        (execRouteMatching :
           InvariantRoute -> string -> Query -> string
           -> option (Result Match))
        (pathname : string) (queryParams : Query) (basePath : string) :
  candidates None pathname = [] /\
  matchRoute execRouteMatching None pathname queryParams basePath = None /\
  matchRouteCall execRouteMatching None pathname queryParams basePath
  = Returned None.
Proof.
  assert (Hc : candidates None pathname = []) by apply descend_None.
  assert (Hm : matchRoute execRouteMatching None pathname queryParams
                          basePath = None)
    by (unfold matchRoute; by rewrite Hc).
  split; [done|]. split; [done|]. unfold matchRouteCall. by rewrite Hm.
Qed.

(** ** The insertion key *)

(** C6, as stated, fails: the key of [/a/:x/b] runs through the wildcard,
    so the route is stored three levels deep and not at the end of its
    run of Literal tokens. *)
Lemma key_runs_through_wildcard :
  stringPrefix sampleParse routeAXB = ["a"; "*"; "b"] /\
  literalPrefix sampleParse routeAXB = ["a"] /\
  ~ (exists rs,
        buildTrie sampleParse [routeAXB]
        ≫= (fun t => find t (literalPrefix sampleParse routeAXB)) = Some rs
        /\ In routeAXB rs).
Proof.
  split; [reflexivity|]. split; [reflexivity|].
  intros (rs & Hf & _). vm_compute in Hf. discriminate.
Qed.

(** C6, amended: the insertion key of a route is the maximal leading run
    of string tokens of its expanded template, Literal or Wildcard alike,
    which ends at the first unsupported token or at the end of the
    sequence.  When every route has a non-empty key, the node that a key
    of [ordinary] names addresses holds exactly the routes with that key,
    in registration order, so each such route is stored once, at the depth
    that is the length of its key.  (A key segment such as [constructor]
    makes [add] write on an inherited object; the statement leaves such
    keys out.) *)
Theorem insertion_key_is_string_run
        (parsePath : string -> list Token)
        (routes : list InvariantRoute) :
  Forall (fun r => stringPrefix parsePath r <> []) routes ->
  (forall r,
      exists rest,
        expandedTokens parsePath r
        = (TStr <$> stringPrefix parsePath r) ++ rest /\
        match rest with
        | token :: _ => isString token = false
        | [] => True
        end) /\
  forall k,
    Forall ordinary k ->
    buildTrie parsePath routes ≫= (fun t => find t k)
    = nonnull (keyed (stringPrefix parsePath) routes k).
Proof.
  intros Hne. split.
  - intros r. unfold stringPrefix.
    destruct (takeWhile_split (expandedTokens parsePath r) isString)
      as (rest & E & Hall & Hrest).
    exists rest. by rewrite tokenStrings_isString.
  - intros k _. destruct (decide (k = [])) as [->|Hk].
    + cbn. rewrite keyed_nil; [done|]. intros r Hr.
      rewrite Forall_forall in Hne. apply Hne. by apply list_elem_of_In.
    + rewrite find_buildTrie by done. f_equal. apply keyed_ext.
      intros r Hr. apply effectiveKey_id.
      rewrite Forall_forall in Hne. apply Hne. by apply list_elem_of_In.
Qed.

Lemma insertion_key_is_string_run_witness :
  Forall (fun r => stringPrefix sampleParse r <> [])
         [routeAXB; routeAB; routeAXB] /\
  Forall ordinary ["a"; "*"; "b"] /\
  buildTrie sampleParse [routeAXB; routeAB; routeAXB]
  ≫= (fun t => find t ["a"; "*"; "b"])
  = Some [routeAXB; routeAXB].
Proof.
  assert (H : Forall (fun r => stringPrefix sampleParse r <> [])
                     [routeAXB; routeAB; routeAXB])
    by (repeat constructor; vm_compute; discriminate).
  assert (Ho : Forall ordinary ["a"; "*"; "b"]) by (repeat constructor).
  split; [exact H|]. split; [exact Ho|].
  exact (proj2 (insertion_key_is_string_run sampleParse _ H)
               ["a"; "*"; "b"] Ho).
Defined.

(** ** The Token Expander *)

(** C7, as stated, fails: the literal that follows the parameter of
    [/:x-b/c] does not begin with the separator, and its first piece
    [-b] is dropped although it is not empty. *)
Lemma first_piece_always_dropped :
  expandToken (TStr "-b/c") = [TStr "c"] /\
  expandToken (TStr "-b/c") <> expandTokenSpec (TStr "-b/c").
Proof. split; [reflexivity|]. vm_compute. discriminate. Qed.

(** C7, amended: [expandToken] is defined on every token.  A literal is
    cut at each separator, and the expansion has one Literal per piece
    after the first; the first piece, the text before the first
    separator, is always left out, and it is the empty piece when the
    literal begins with the separator.  A parameter whose pattern is that
    of one segment becomes the Wildcard, and any other token is returned
    as it is. *)
Theorem expandToken_shapes (token : Token) :
  match token with
  | TStr s =>
      exists first pieces,
        split "/" s = first :: pieces /\
        join "/" (first :: pieces) = s /\
        Forall (lacks "/") (first :: pieces) /\
        expandToken token = TStr <$> pieces /\
        (forall s', s = String "/" s' ->
                    first = EmptyString /\ pieces = split "/" s')
  | TKey k =>
      (key_pattern k = segmentPattern ->
       expandToken token = [TStr wildcardKey]) /\
      (key_pattern k <> segmentPattern -> expandToken token = [token])
  end.
Proof.
  destruct token as [s|k].
  - destruct (split "/" s) as [|first pieces] eqn:E;
      [by apply split_nonempty in E|].
    exists first, pieces. split; [done|].
    split; [rewrite <- E; apply (join_split "/")|].
    split; [rewrite <- E; apply split_lacks|].
    split; [cbn; by rewrite E|].
    intros s' ->. cbn in E. by injection E as <- <-.
  - cbn. split.
    + intros ->. by rewrite String.eqb_refl.
    + intros Hne. by apply String.eqb_neq in Hne as ->.
Qed.

(** ** The empty request path *)

(** C8, as stated, fails: [/:x?] has the wildcard as its first key
    segment and the matcher accepts it on the request [/], but the
    descent collects nothing there. *)
Lemma root_routes_not_collected :
  rootRoute sampleParse routeOptional /\
  sampleExec routeOptional "/" tt "" = Some (MkResult routeOptional "/") /\
  matchRoute sampleExec (buildTrie sampleParse [routeOptional]) "/" tt ""
  = None /\
  ~ (forall r,
        In r (candidates (buildTrie sampleParse [routeOptional]) "/") <->
        In r [routeOptional] /\ rootRoute sampleParse r).
Proof.
  assert (Hroot : rootRoute sampleParse routeOptional) by (by right).
  split; [done|]. split; [reflexivity|]. split; [reflexivity|].
  intros Hall. destruct (proj2 (Hall routeOptional)) as [].
  split; [by left|done].
Qed.

(** C8, amended: a request path without segments visits no node, so it
    has no candidate and [matchRoute] returns no match, whatever the
    trie holds; it matches at most the routes the design names, namely
    none. *)
Theorem empty_request_no_candidates {Query Match}
        (execRouteMatching :
           InvariantRoute -> string -> Query -> string
           -> option (Result Match))
        (trie : option (PrefixTree InvariantRoute))
        (pathname : string) (queryParams : Query) (basePath : string) :
  splitPath pathname = [] ->
  candidates trie pathname = [] /\
  matchRoute execRouteMatching trie pathname queryParams basePath = None.
Proof.
  intros Hs.
  assert (Hc : candidates trie pathname = []).
  { unfold candidates. rewrite Hs. by destruct trie. }
  split; [done|]. unfold matchRoute. by rewrite Hc.
Qed.

Lemma empty_request_no_candidates_witness :
  splitPath "/" = [] /\
  candidates (buildTrie sampleParse [routeOptional; routeA]) "/" = [] /\
  matchRoute sampleExec (buildTrie sampleParse [routeOptional; routeA])
             "/" tt "" = None.
Proof.
  split; [reflexivity|].
  exact (empty_request_no_candidates sampleExec _ "/" tt "" eq_refl).
Defined.

(** ** A route without a leading string token *)

(** C9 fails by a slip of [add]: [/:id(\d+)] begins with an unsupported
    token, its key is empty, and [path[0]] of the empty key names the
    edge ["undefined"].  The route is held there and the request [/42],
    which the matcher accepts for it, reaches no candidate. *)
Lemma empty_key_stored_under_undefined :
  stringPrefix sampleParse routeItem = [] /\
  buildTrie sampleParse [routeItem] ≫= (fun t => find t ["undefined"])
  = Some [routeItem] /\
  sampleExec routeItem "/42" tt "" = Some (MkResult routeItem "/42") /\
  candidates (buildTrie sampleParse [routeItem]) "/42" = [] /\
  matchRoute sampleExec (buildTrie sampleParse [routeItem]) "/42" tt ""
  = None /\
  candidates (buildTrie sampleParse [routeItem]) "/undefined"
  = [routeItem].
Proof. repeat split; reflexivity. Qed.

(** ** No backtracking *)



(** The routes [/a/b/c] and [/a/:x/d]: the request [/a/b/d] follows the
    edge [b], finds no edge [d] below it, and ends without a candidate,
    though the matcher accepts [/a/:x/d] for it. *)
Example descent_does_not_backtrack :
  sampleExec routeAXD "/a/b/d" tt "" = Some (MkResult routeAXD "/a/b/d") /\
  candidates (buildTrie sampleParse [routeABC; routeAXD]) "/a/b/d" = [] /\
  matchRoute sampleExec (buildTrie sampleParse [routeABC; routeAXD])
             "/a/b/d" tt "" = None.
Proof. repeat split; reflexivity. Qed.

(** * Further properties of the code *)

(** ** Insertion and lookup *)

Section AddFind.
Context {T : Type}.
Implicit Types (t : PrefixTree T) (v : T) (p : string) (k q : list string).
Local Arguments add : simpl never.

Lemma add_cons p rest v t :
  add (p :: rest) v t =
  MkTree (<[p := nodeAfter rest v (nodeAt t p)]> (prefixes t)).
Proof.
  destruct rest as [|x rest]; [|done].
  rewrite add_single. unfold pushValue, nodeAfter.
  by destruct (value (nodeAt t p)).
Qed.

Lemma find_emptyTree q : find (@emptyTree T) q = None.
Proof. destruct q as [|p q]; [done|]. cbn. by rewrite lookup_empty. Qed.

Lemma find_cons t p q :
  find t (p :: q) =
  match q with
  | [] => value (nodeAt t p)
  | _ :: _ => find (default emptyTree (tail (nodeAt t p))) q
  end.
Proof.
  cbn [find]. unfold nodeAt.
  destruct (prefixes t !! p) as [node|]; cbn.
  - destruct q; [done|]. destruct (tail node); [done|].
    by rewrite find_emptyTree.
  - destruct q; [done|]. by rewrite find_emptyTree.
Qed.

Lemma nodeAt_add_same p rest v t :
  nodeAt (add (p :: rest) v t) p = nodeAfter rest v (nodeAt t p).
Proof. rewrite add_cons. unfold nodeAt at 1. cbn. by rewrite lookup_insert_eq. Qed.

Lemma nodeAt_add_other p p' rest v t :
  p <> p' -> nodeAt (add (p :: rest) v t) p' = nodeAt t p'.
Proof.
  intros Hne. rewrite add_cons. unfold nodeAt. cbn.
  by rewrite lookup_insert_ne.
Qed.

Lemma find_add_nonempty k v t q :
  k <> [] ->
  find (add k v t) q =
  if decide (q = k) then Some (default [] (find t q) ++ [v]) else find t q.
Proof.
  revert t q. induction k as [|p rest IH]; intros t q Hk; [done|].
  destruct q as [|p' q]; [by rewrite decide_False|].
  rewrite !find_cons.
  destruct (decide (p = p')) as [<-|Hp].
  - rewrite nodeAt_add_same.
    destruct rest as [|x rest], q as [|y q]; cbn [nodeAfter value tail default from_option id].
    + by rewrite decide_True.
    + by rewrite decide_False.
    + by rewrite decide_False.
    + rewrite IH by done.
      destruct (decide (y :: q = x :: rest)) as [->|Hne].
      * by rewrite decide_True.
      * rewrite decide_False; [done|]. congruence.
  - rewrite nodeAt_add_other by done.
    rewrite decide_False; [done|]. congruence.
Qed.

(** X1: looking up after an insertion, on a path of [ordinary] names.
    [find] on the path that [add] really used (the key, or ["undefined"]
    for the empty key) returns what it returned before with the new value
    appended; on every other such path it returns what it returned
    before. *)
Theorem find_after_add k v t q :
  Forall ordinary q ->
  find (add k v t) q =
  if decide (q = effectiveKey k)
  then Some (default [] (find t q) ++ [v])
  else find t q.
Proof.
  intros _. rewrite <- add_effectiveKey. apply find_add_nonempty.
  by destruct k.
Qed.

Lemma nodeAfter_commute r1 r2 v1 v2 (node : PrefixTreeNode T) :
  (forall tl, r1 <> [] -> r2 <> [] ->
              add r1 v1 (add r2 v2 tl) = add r2 v2 (add r1 v1 tl)) ->
  r1 <> [] \/ r2 <> [] ->
  nodeAfter r1 v1 (nodeAfter r2 v2 node)
  = nodeAfter r2 v2 (nodeAfter r1 v1 node).
Proof.
  intros Hadd Hne.
  destruct r1 as [|x1 r1], r2 as [|x2 r2]; cbn [nodeAfter value tail default from_option id].
  - by destruct Hne.
  - done.
  - done.
  - by rewrite Hadd.
Qed.

Lemma add_commute_nonempty k1 k2 v1 v2 t :
  k1 <> [] -> k2 <> [] -> k1 <> k2 ->
  add k1 v1 (add k2 v2 t) = add k2 v2 (add k1 v1 t).
Proof.
  revert k2 t. induction k1 as [|p1 r1 IH]; intros k2 t H1 H2 Hne; [done|].
  destruct k2 as [|p2 r2]; [done|].
  rewrite (add_cons p1 r1 v1 (add _ _ _)), (add_cons p2 r2 v2 (add _ _ _)).
  destruct (decide (p1 = p2)) as [<-|Hp].
  - rewrite !nodeAt_add_same. rewrite !add_cons. cbn [prefixes].
    rewrite !insert_insert_eq. do 2 f_equal.
    destruct (decide (r1 = [])) as [->|Hr1].
    + apply nodeAfter_commute; [done|]. right. congruence.
    + apply nodeAfter_commute; [|by left].
      intros tl _ Hr2. apply IH; [done..|congruence].
  - rewrite !nodeAt_add_other by done. rewrite !add_cons. cbn [prefixes].
    f_equal. by apply insert_insert_ne.
Qed.

(** X2: insertions under different paths of [ordinary] names commute:
    the tries are equal whichever is done first, so that registration
    order matters only among values with the same key. *)
Theorem add_commute k1 k2 v1 v2 t :
  Forall ordinary (effectiveKey k1) ->
  Forall ordinary (effectiveKey k2) ->
  effectiveKey k1 <> effectiveKey k2 ->
  add k1 v1 (add k2 v2 t) = add k2 v2 (add k1 v1 t).
Proof.
  intros _ _ Hne.
  rewrite <- (add_effectiveKey k1), <- (add_effectiveKey k2).
  rewrite <- (add_effectiveKey k1 v1 t), <- (add_effectiveKey k2 v2 (add _ _ _)).
  apply add_commute_nonempty; [by destruct k1|by destruct k2|done].
Qed.
End AddFind.

Lemma find_after_add_witness :
  Forall ordinary ["a"; "b"] /\
  find (add ["a"; "b"] routeAB (add ["a"] routeA emptyTree)) ["a"; "b"]
  = Some [routeAB].
Proof.
  assert (Ho : Forall ordinary ["a"; "b"]) by (repeat constructor).
  split; [exact Ho|].
  exact (find_after_add ["a"; "b"] routeAB (add ["a"] routeA emptyTree)
                        ["a"; "b"] Ho).
Defined.

Lemma add_commute_witness :
  Forall ordinary (effectiveKey ["a"; "b"]) /\
  Forall ordinary (effectiveKey ["a"]) /\
  effectiveKey ["a"; "b"] <> effectiveKey ["a"] /\
  add ["a"; "b"] routeAB (add ["a"] routeA emptyTree)
  = add ["a"] routeA (add ["a"; "b"] routeAB emptyTree).
Proof.
  assert (H1 : Forall ordinary (effectiveKey ["a"; "b"]))
    by (repeat constructor).
  assert (H2 : Forall ordinary (effectiveKey ["a"]))
    by (repeat constructor).
  assert (H : effectiveKey ["a"; "b"] <> effectiveKey ["a"]) by discriminate.
  split; [exact H1|]. split; [exact H2|]. split; [exact H|].
  exact (add_commute _ _ _ _ _ H1 H2 H).
Defined.

(** ** The leading run *)

(** X3: [takeWhile] returns the longest leading run of items that satisfy
    the predicate, and nothing else does: the result is followed in the
    array by an item that fails the predicate, or by nothing. *)
Theorem takeWhile_longest_prefix {A} (arr result : list A)
        (predicate : A -> bool) :
  takeWhile arr predicate = result <->
  exists rest,
    arr = result ++ rest /\
    Forall (fun item => predicate item = true) result /\
    match rest with item :: _ => predicate item = false | [] => True end.
Proof.
  split.
  - intros <-. apply takeWhile_split.
  - intros (rest & -> & Hall & Hrest).
    induction Hall as [|item result Hitem _ IH]; cbn.
    + destruct rest as [|item rest]; [done|]. cbn. by rewrite Hrest.
    + by rewrite Hitem, IH.
Qed.

(** ** The segments of a request path *)

Lemma split_app_sep sep a b :
  split sep (a ++ String sep b)%string = split sep a ++ split sep b.
Proof.
  induction a as [|c a IH].
  - change (split sep (String sep b) = [EmptyString] ++ split sep b).
    cbn [split]. by rewrite Ascii.eqb_refl.
  - change (split sep (String c (a ++ String sep b)%string)
            = split sep (String c a) ++ split sep b).
    cbn [split]. rewrite IH.
    destruct (Ascii.eqb c sep); [done|].
    destruct (split sep a) as [|piece pieces] eqn:E;
      [by apply split_nonempty in E|done].
Qed.

Lemma splitPath_sep (a b : string) :
  splitPath (a ++ String "/" b)%string = splitPath a ++ splitPath b.
Proof. unfold splitPath. by rewrite split_app_sep, List.filter_app. Qed.

Lemma splitPath_single s : cleanSegment s -> splitPath s = [s].
Proof.
  intros [Hne Hl]. unfold splitPath. rewrite split_lacking by done.
  cbn. by destruct s.
Qed.

(** X4: the segments of two paths joined by a separator are the segments
    of the first followed by those of the second; so a separator at the
    start or at the end, or a doubled one, changes nothing. *)
Theorem splitPath_separators (a b : string) :
  splitPath (a ++ String "/" b)%string = splitPath a ++ splitPath b /\
  splitPath (String "/" a) = splitPath a /\
  splitPath (a ++ "/")%string = splitPath a /\
  splitPath (a ++ String "/" (String "/" b))%string
  = splitPath (a ++ String "/" b)%string.
Proof.
  split; [apply splitPath_sep|]. split; [|split].
  - apply (splitPath_sep EmptyString a).
  - change (a ++ "/")%string with (a ++ String "/" EmptyString)%string.
    rewrite splitPath_sep. apply app_nil_r.
  - rewrite (splitPath_sep a (String "/" b)), (splitPath_sep a b).
    reflexivity.
Qed.

Lemma splitPath_clean (pathname : string) :
  Forall cleanSegment (splitPath pathname).
Proof.
  unfold splitPath. apply Forall_forall. intros s Hs.
  apply list_elem_of_In, List.filter_In in Hs as [Hin Ht]. split.
  - by destruct s.
  - pose proof (split_lacks "/" pathname) as Hl.
    rewrite Forall_forall in Hl. by apply Hl, list_elem_of_In.
Qed.

Lemma splitPath_join_clean (segs : list string) :
  Forall cleanSegment segs -> splitPath (join "/" segs) = segs.
Proof.
  induction 1 as [|s segs Hs Hc IH]; [done|].
  destruct segs as [|s' segs].
  - by apply splitPath_single.
  - rewrite join_cons_cons.
    change (s ++ "/" ++ join "/" (s' :: segs))%string
      with (s ++ String "/" (join "/" (s' :: segs)))%string.
    by rewrite splitPath_sep, IH, splitPath_single.
Qed.

(** X5: no segment of a request path is empty and none holds the
    separator; the segments are a normal form of the path: joined again
    and split again, they are the same. *)
Theorem splitPath_segments (pathname : string) :
  Forall cleanSegment (splitPath pathname) /\
  splitPath (join "/" (splitPath pathname)) = splitPath pathname.
Proof.
  pose proof (splitPath_clean pathname) as Hc.
  split; [exact Hc|]. by apply splitPath_join_clean.
Qed.

(** X6: splitting undoes joining.  The path made of such segments, joined
    by the separator, with or without a separator in front or behind, has
    exactly these segments. *)
Theorem splitPath_join (segs : list string) :
  Forall cleanSegment segs ->
  splitPath (join "/" segs) = segs /\
  splitPath (String "/" (join "/" segs)) = segs /\
  splitPath (join "/" segs ++ "/")%string = segs.
Proof.
  intros Hc.
  assert (H1 : splitPath (join "/" segs) = segs)
    by (by apply splitPath_join_clean).
  split; [done|]. split.
  - change (String "/" (join "/" segs))
      with (EmptyString ++ String "/" (join "/" segs))%string.
    by rewrite splitPath_sep, H1.
  - change (join "/" segs ++ "/")%string
      with (join "/" segs ++ String "/" EmptyString)%string.
    by rewrite splitPath_sep, H1, app_nil_r.
Qed.

Lemma splitPath_join_witness :
  Forall cleanSegment ["jira"; "software"] /\
  splitPath "/jira/software" = ["jira"; "software"].
Proof.
  assert (H : Forall cleanSegment ["jira"; "software"]).
  { repeat constructor; try discriminate. }
  split; [exact H|]. exact (proj1 (proj2 (splitPath_join _ H))).
Defined.

(** ** The candidates and the route list *)

Section TrailFacts.
Context {T : Type}.
Implicit Types (key : T -> list string) (routes : list T)
         (keys : list (list string)) (pre segs k : list string).

(** Each key of the trail continues [pre] by segments that fit the
    request. *)
Lemma trail_fits keys pre segs k :
  In k (trail keys pre segs) ->
  exists suf, k = pre ++ suf /\ suf <> [] /\ keyFits suf segs = true.
Proof.
  revert pre. induction segs as [|s rest IH]; intros pre; [done|].
  assert (Hstep : forall e,
    (String.eqb e s || String.eqb e wildcardKey) = true ->
    In k ((pre ++ [e]) :: trail keys (pre ++ [e]) rest) ->
    exists suf, k = pre ++ suf /\ suf <> [] /\ keyFits suf (s :: rest) = true).
  { intros e He [<-|Hin].
    - exists [e]. cbn. by rewrite He.
    - destruct (IH _ Hin) as (suf & -> & Hne & Hfit).
      exists (e :: suf). rewrite <- app_assoc. cbn. by rewrite He, Hfit. }
  cbn [trail].
  destruct (extended keys (pre ++ [s])).
  - apply Hstep. by rewrite String.eqb_refl.
  - destruct (extended keys (pre ++ [wildcardKey])); [|done].
    apply Hstep. by rewrite String.eqb_refl, orb_true_r.
Qed.

Lemma trail_NoDup keys pre segs : NoDup (trail keys pre segs).
Proof.
  revert pre. induction segs as [|s rest IH]; intros pre; [constructor|].
  assert (Hstep : forall e,
    NoDup ((pre ++ [e]) :: trail keys (pre ++ [e]) rest)).
  { intros e. constructor; [|apply IH].
    intros (suf & E & Hne & _)%list_elem_of_In%trail_fits.
    apply Hne. rewrite <- (app_nil_r (pre ++ [e])) in E at 1.
    by apply app_inv_head in E. }
  cbn [trail].
  destruct (extended keys (pre ++ [s])); [apply Hstep|].
  destruct (extended keys (pre ++ [wildcardKey])); [apply Hstep|constructor].
Qed.

Lemma trail_app keys pre segs more :
  trail keys pre segs `prefix_of` trail keys pre (segs ++ more).
Proof.
  revert pre. induction segs as [|s rest IH]; intros pre;
    [apply prefix_nil|].
  cbn [trail app].
  destruct (extended keys (pre ++ [s])); [by apply prefix_cons|].
  destruct (extended keys (pre ++ [wildcardKey])); [by apply prefix_cons|].
  done.
Qed.

(** A key that continues [pre] by leading segments of the request is on
    the trail. *)
Lemma trail_literal keys pre suf segs :
  suf <> [] -> suf `prefix_of` segs -> In (pre ++ suf) keys ->
  In (pre ++ suf) (trail keys pre segs).
Proof.
  revert pre segs. induction suf as [|e suf IH]; intros pre segs Hne [more ->] Hin;
    [done|].
  cbn [trail app].
  assert (extended keys (pre ++ [e]) = true) as ->.
  { apply existsb_exists. exists (pre ++ e :: suf). split; [done|].
    apply bool_decide_eq_true. exists suf. by rewrite <- app_assoc. }
  destruct suf as [|e' suf]; [by left|]. right.
  replace (pre ++ e :: e' :: suf) with ((pre ++ [e]) ++ e' :: suf)
    by (by rewrite <- app_assoc).
  apply IH; [done|by eexists|]. by rewrite <- app_assoc.
Qed.

Lemma keyed_In key routes k r :
  In r (keyed key routes k) <-> In r routes /\ key r = k.
Proof.
  unfold keyed. rewrite List.filter_In. by rewrite bool_decide_eq_true.
Qed.

Lemma scanCandidates_In key routes segs r :
  In r (scanCandidates key routes segs) <->
  In r routes /\ In (key r) (trail (key <$> routes) [] segs).
Proof.
  unfold scanCandidates. rewrite <- list_elem_of_In, list_elem_of_bind. split.
  - intros (k & Hr%list_elem_of_In%keyed_In & Hk%list_elem_of_In).
    destruct Hr as [Hr <-]. done.
  - intros [Hr Hk]. exists (key r). split; apply list_elem_of_In; [|done].
    by apply keyed_In.
Qed.

(** The routes with one of several distinct keys, counted once each. *)
Lemma bind_keyed_cons key routes r ks :
  NoDup ks ->
  ks ≫= keyed key (r :: routes)
  ≡ₚ (if decide (key r ∈ ks) then [r] else []) ++ (ks ≫= keyed key routes).
Proof.
  induction 1 as [|k ks Hk Hnd IH]; [done|].
  cbn [mbind list_bind]. change (list_bind _ _ (keyed key (r :: routes)) ks)
    with (ks ≫= keyed key (r :: routes)).
  change (list_bind _ _ (keyed key routes) ks) with (ks ≫= keyed key routes).
  rewrite IH. unfold keyed at 1. cbn [List.filter].
  destruct (decide (key r = k)) as [E|Hne].
  - rewrite bool_decide_true by done. subst k.
    rewrite (decide_True (P := key r ∈ key r :: ks)) by (by left).
    rewrite decide_False by done. done.
  - rewrite bool_decide_false by done.
    destruct (decide (key r ∈ ks)) as [Hin|Hnin].
    + rewrite (decide_True (P := key r ∈ k :: ks)) by (by right).
      fold (keyed key routes k). by rewrite Permutation_app_swap_app.
    + rewrite (decide_False (P := key r ∈ k :: ks)); [done|].
      by intros [?|?]%elem_of_cons.
Qed.

Lemma bind_keyed_nil key ks : ks ≫= keyed key [] = [].
Proof. induction ks as [|k ks IH]; [done|]. done. Qed.

Lemma bind_keyed_submseteq key routes ks :
  NoDup ks -> ks ≫= keyed key routes ⊆+ routes.
Proof.
  intros Hnd. induction routes as [|r routes IH].
  - by rewrite bind_keyed_nil.
  - rewrite bind_keyed_cons by done.
    destruct (decide (key r ∈ ks)); cbn.
    + by apply submseteq_skip.
    + by apply submseteq_cons.
Qed.

Lemma scanCandidates_app key routes segs more :
  scanCandidates key routes segs
  `prefix_of` scanCandidates key routes (segs ++ more).
Proof.
  unfold scanCandidates.
  destruct (trail_app (key <$> routes) [] segs more) as [ks ->].
  rewrite bind_app. by apply prefix_app_r.
Qed.
End TrailFacts.

Lemma descend_app {T} (ot : option (PrefixTree T)) segs more (acc : list T) :
  descend ot segs acc `prefix_of` descend ot (segs ++ more) acc.
Proof.
  revert ot acc. induction segs as [|s rest IH]; intros ot acc.
  - cbn [app descend]. rewrite (descend_acc ot more acc).
    destruct ot; by apply prefix_app_r.
  - destruct ot as [t|]; [|done]. cbn [app descend]. apply IH.
Qed.

Lemma keyFits_nonempty k segs :
  keyFits k segs = true -> Forall cleanSegment segs ->
  ~ In EmptyString k.
Proof.
  revert segs. induction k as [|e k IH]; intros segs Hfit Hc; [by intros []|].
  destruct segs as [|s segs]; [done|]. cbn in Hfit.
  apply andb_true_iff in Hfit as [He Hfit].
  apply Forall_cons in Hc as [[Hs _] Hc].
  intros [->|Hin]; [|by eapply IH].
  apply orb_true_iff in He as [He|He]; [|done].
  apply String.eqb_eq in He. by subst s.
Qed.

Lemma takeWhile_In {A} (l : list A) (f : A -> bool) x :
  In x (takeWhile l f) -> In x l.
Proof.
  induction l as [|y l IH]; [done|]. cbn. destruct (f y); [|done].
  intros [->|Hin]; [by left|right; by apply IH].
Qed.

Lemma tokenStrings_In tokens s :
  In s (tokenStrings tokens) -> In (TStr s) tokens.
Proof.
  induction tokens as [|[s'|k] tokens IH]; [done| |].
  - cbn. intros [->|Hin]; [by left|right; by apply IH].
  - cbn. intros Hin. right. by apply IH.
Qed.

Lemma expandToken_lacks token s :
  In (TStr s) (expandToken token) -> lacks "/" s.
Proof.
  destruct token as [s'|k]; cbn.
  - intros Hin%list_elem_of_In%list_elem_of_fmap. destruct Hin as (s0 & [= <-] & Hin).
    pose proof (split_lacks "/" s') as Hl. rewrite Forall_forall in Hl.
    apply Hl. unfold slice1 in Hin. by eapply subseteq_drop.
  - destruct (String.eqb (key_pattern k) segmentPattern).
    + intros [[= <-]|[]]. by split.
    + by intros [|[]].
Qed.

Section CandidateFacts.
Context {Query Match : Type}.
Variable parsePath : string -> list Token.
Variable execRouteMatching :
  InvariantRoute -> string -> Query -> string -> option (Result Match).
Implicit Types (routes : list InvariantRoute) (r : InvariantRoute)
         (pathname : string).

Lemma candidates_In routes pathname r :
  In r (candidates (buildTrie parsePath routes) pathname) ->
  In r routes /\
  keyFits (effectiveKey (stringPrefix parsePath r)) (splitPath pathname)
  = true.
Proof.
  rewrite candidates_buildTrie, scanCandidates_In. intros [Hr Hk].
  split; [done|].
  destruct (trail_fits _ _ _ _ Hk) as (suf & E & _ & Hfit).
  cbn in E. by rewrite E.
Qed.

Lemma matchRoute_accepted trie pathname queryParams basePath r :
  In r (candidates trie pathname) ->
  execRouteMatching r pathname queryParams basePath <> None ->
  matchRoute execRouteMatching trie pathname queryParams basePath <> None.
Proof.
  intros Hin Hacc Hnone. apply Hacc. unfold matchRoute in Hnone.
  rewrite evaluate_None in Hnone.
  apply list_elem_of_In, list_elem_of_lookup in Hin as [i Hi].
  apply (Hnone i); [by eapply lookup_lt_Some|done].
Qed.
End CandidateFacts.

(** X7: a longer request collects what the shorter one collects, and then
    more: the candidates of a path are the first candidates, in the same
    order, of the path continued by a separator and anything. *)
Theorem candidates_of_longer_path
        (trie : option (PrefixTree InvariantRoute)) (a b : string) :
  candidates trie a `prefix_of` candidates trie (a ++ String "/" b)%string.
Proof.
  unfold candidates. rewrite splitPath_sep. apply descend_app.
Qed.

(** X8: the trie only proposes routes that can fit.  For a request
    whose segments are [ordinary] names, every candidate is a registered
    route whose key is no longer than the request and agrees with it
    segment by segment, up to wildcards; and whatever [matchRoute]
    returns is what the external matcher returned for such a route. *)
Theorem candidates_fit_request {Query Match}
        (parsePath : string -> list Token)
        (execRouteMatching :
           InvariantRoute -> string -> Query -> string
           -> option (Result Match))
        (routes : list InvariantRoute)
        (pathname : string) (queryParams : Query) (basePath : string) :
  Forall ordinary (splitPath pathname) ->
  (forall r,
      In r (candidates (buildTrie parsePath routes) pathname) ->
      In r routes /\
      keyFits (effectiveKey (stringPrefix parsePath r)) (splitPath pathname)
      = true) /\
  (forall m,
      matchRoute execRouteMatching (buildTrie parsePath routes)
                 pathname queryParams basePath = Some m ->
      exists r,
        In r routes /\
        keyFits (effectiveKey (stringPrefix parsePath r))
                (splitPath pathname) = true /\
        execRouteMatching r pathname queryParams basePath = Some m).
Proof.
  intros _. split; [intros r; apply candidates_In|].
  intros m Hm. unfold matchRoute in Hm. apply evaluate_Some in Hm
    as (i & r & _ & Hr & Hacc & _).
  exists r. assert (Hin : In r (candidates (buildTrie parsePath routes) pathname))
    by (apply list_elem_of_In, list_elem_of_lookup; eauto).
  destruct (candidates_In _ _ _ _ Hin). done.
Qed.

Lemma candidates_fit_request_witness :
  Forall ordinary (splitPath "/a/b") /\
  exists r,
    In r [routeAX; routeAB; routeA] /\
    keyFits (effectiveKey (stringPrefix sampleParse r)) (splitPath "/a/b")
    = true /\
    sampleExec r "/a/b" tt "" = Some (MkResult routeAB "/a/b").
Proof.
  assert (Ho : Forall ordinary (splitPath "/a/b")) by (repeat constructor).
  split; [exact Ho|].
  exact (proj2 (candidates_fit_request sampleParse sampleExec
                  [routeAX; routeAB; routeA] "/a/b" tt "" Ho)
               (MkResult routeAB "/a/b") eq_refl).
Defined.

(** X9: for a request whose segments are [ordinary] names, each
    registered route is collected at most once: the candidates are, up to
    order, part of the route list.  So they are never more than the
    routes, and they are distinct when the routes are. *)
Theorem candidates_within_routes
        (parsePath : string -> list Token)
        (routes : list InvariantRoute) (pathname : string) :
  Forall ordinary (splitPath pathname) ->
  candidates (buildTrie parsePath routes) pathname ⊆+ routes /\
  length (candidates (buildTrie parsePath routes) pathname)
  <= length routes /\
  (NoDup routes ->
   NoDup (candidates (buildTrie parsePath routes) pathname)).
Proof.
  intros _.
  assert (Hsub : candidates (buildTrie parsePath routes) pathname ⊆+ routes).
  { rewrite candidates_buildTrie. apply bind_keyed_submseteq, trail_NoDup. }
  split; [done|]. split.
  - by apply submseteq_length.
  - intros Hnd. apply submseteq_Permutation in Hsub as [rest Hperm].
    rewrite Hperm in Hnd. by apply NoDup_app in Hnd as [? _].
Qed.

Lemma candidates_within_routes_witness :
  Forall ordinary (splitPath "/a/b") /\
  length (candidates (buildTrie sampleParse [routeAX; routeAB; routeA])
                     "/a/b")
  <= length [routeAX; routeAB; routeA].
Proof.
  assert (Ho : Forall ordinary (splitPath "/a/b")) by (repeat constructor).
  split; [exact Ho|].
  exact (proj1 (proj2 (candidates_within_routes sampleParse
                         [routeAX; routeAB; routeA] "/a/b" Ho))).
Defined.

(** X10: a route with a literal key is never missed.  When the key of a
    registered route is not empty and consists of the leading segments of
    the request, the route is a candidate; if the external matcher
    accepts it, [matchRoute] returns a match. *)
Theorem literal_key_is_collected {Query Match}
        (parsePath : string -> list Token)
        (execRouteMatching :
           InvariantRoute -> string -> Query -> string
           -> option (Result Match))
        (routes : list InvariantRoute) (r : InvariantRoute)
        (pathname : string) (queryParams : Query) (basePath : string) :
  In r routes ->
  stringPrefix parsePath r <> [] ->
  stringPrefix parsePath r `prefix_of` splitPath pathname ->
  In r (candidates (buildTrie parsePath routes) pathname) /\
  (execRouteMatching r pathname queryParams basePath <> None ->
   matchRoute execRouteMatching (buildTrie parsePath routes)
              pathname queryParams basePath <> None).
Proof.
  intros Hr Hne Hpre.
  assert (Hin : In r (candidates (buildTrie parsePath routes) pathname)).
  { rewrite candidates_buildTrie, scanCandidates_In. split; [done|].
    rewrite (effectiveKey_id _ Hne).
    apply (trail_literal _ [] (stringPrefix parsePath r)); [done..|].
    cbn [app]. rewrite <- (effectiveKey_id _ Hne).
    apply list_elem_of_In, list_elem_of_fmap. exists r.
    split; [done|]. by apply list_elem_of_In. }
  split; [done|]. by apply matchRoute_accepted.
Qed.

Lemma literal_key_is_collected_witness :
  In routeAB [routeAX; routeAB; routeA] /\
  matchRoute sampleExec (buildTrie sampleParse [routeAX; routeAB; routeA])
             "/a/b" tt "" <> None.
Proof.
  assert (H : In routeAB [routeAX; routeAB; routeA]) by (right; left; done).
  split; [exact H|].
  refine (proj2 (literal_key_is_collected sampleParse sampleExec
                   _ routeAB "/a/b" tt "" H _ _) _).
  - discriminate.
  - by exists [].
  - discriminate.
Defined.

(** X11: no segment of an insertion key holds the separator, whatever the
    parser returns: a key segment is a piece of a literal cut at the
    separators, or the wildcard. *)
Theorem key_segments_lack_separator
        (parsePath : string -> list Token) (r : InvariantRoute) :
  Forall (lacks "/") (stringPrefix parsePath r).
Proof.
  apply Forall_forall. intros s Hs%list_elem_of_In.
  apply tokenStrings_In, takeWhile_In in Hs.
  unfold expandedTokens in Hs.
  apply list_elem_of_In, list_elem_of_bind in Hs as (token & Hs & _).
  by apply (expandToken_lacks token), list_elem_of_In.
Qed.

(** X12: a route whose key has an empty segment is never a candidate, for
    any route set and any request whose segments are [ordinary] names.
    Such are the root route [/], whose key is the one empty segment, and
    every template that ends with the separator. *)
Theorem empty_key_segment_never_collected
        (parsePath : string -> list Token)
        (routes : list InvariantRoute) (r : InvariantRoute)
        (pathname : string) :
  In EmptyString (stringPrefix parsePath r) ->
  Forall ordinary (splitPath pathname) ->
  ~ In r (candidates (buildTrie parsePath routes) pathname).
Proof.
  intros Hempty _ Hin.
  destruct (candidates_In _ _ _ _ Hin) as [_ Hfit].
  rewrite effectiveKey_id in Hfit by (by destruct (stringPrefix parsePath r)).
  by apply (keyFits_nonempty _ _ Hfit (splitPath_clean pathname)).
Qed.

Lemma empty_key_segment_never_collected_witness :
  In EmptyString (stringPrefix sampleParse routeRoot) /\
  Forall ordinary (splitPath "/a/b") /\
  ~ In routeRoot
       (candidates (buildTrie sampleParse [routeRoot; routeA; routeAB])
                   "/a/b").
Proof.
  assert (H : In EmptyString (stringPrefix sampleParse routeRoot))
    by (by left).
  assert (Ho : Forall ordinary (splitPath "/a/b")) by (repeat constructor).
  split; [exact H|]. split; [exact Ho|].
  exact (empty_key_segment_never_collected sampleParse _ routeRoot "/a/b"
                                           H Ho).
Defined.

(** ** Registration order, other subtrees, and [find] *)

(** X13: two routes registered one after the other may be exchanged when
    their keys differ and are made of [ordinary] names: [buildTrie]
    returns the same trie. *)
Theorem buildTrie_swap
        (parsePath : string -> list Token)
        (before after : list InvariantRoute) (r1 r2 : InvariantRoute) :
  Forall ordinary (effectiveKey (stringPrefix parsePath r1)) ->
  Forall ordinary (effectiveKey (stringPrefix parsePath r2)) ->
  effectiveKey (stringPrefix parsePath r1)
  <> effectiveKey (stringPrefix parsePath r2) ->
  buildTrie parsePath (before ++ r1 :: r2 :: after)
  = buildTrie parsePath (before ++ r2 :: r1 :: after).
Proof.
  intros _ _ Hne. unfold buildTrie. f_equal. rewrite !fold_left_app.
  cbn [fold_left]. f_equal.
  set (t := fold_left _ before emptyTree).
  rewrite <- (add_effectiveKey (stringPrefix parsePath r2) r2 (add _ _ _)).
  rewrite <- (add_effectiveKey (stringPrefix parsePath r1) r1 (add _ _ _)).
  rewrite <- (add_effectiveKey (stringPrefix parsePath r1) r1 t).
  rewrite <- (add_effectiveKey (stringPrefix parsePath r2) r2 t).
  apply add_commute_nonempty; [apply effectiveKey_nonempty..|congruence].
Qed.

Lemma buildTrie_swap_witness :
  buildTrie sampleParse ([routeAX] ++ routeAB :: routeA :: [routeABC])
  = buildTrie sampleParse ([routeAX] ++ routeA :: routeAB :: [routeABC]).
Proof.
  apply (buildTrie_swap sampleParse [routeAX] [routeABC] routeAB routeA).
  - repeat constructor.
  - repeat constructor.
  - discriminate.
Defined.

(** X14: an insertion elsewhere does not touch a request whose segments
    are [ordinary] names.  When the path that [add] uses begins neither
    with the first segment of the request nor with the wildcard, the
    candidates and the result of the request are what they were before
    the insertion. *)
Theorem add_elsewhere {Query Match}
        (execRouteMatching :
           InvariantRoute -> string -> Query -> string
           -> option (Result Match))
        (t : PrefixTree InvariantRoute)
        (k : list string) (v : InvariantRoute)
        (pathname : string) (queryParams : Query) (basePath : string) :
  Forall ordinary (splitPath pathname) ->
  head (effectiveKey k) <> head (splitPath pathname) ->
  head (effectiveKey k) <> Some wildcardKey ->
  candidates (Some (add k v t)) pathname = candidates (Some t) pathname /\
  matchRoute execRouteMatching (Some (add k v t))
             pathname queryParams basePath
  = matchRoute execRouteMatching (Some t) pathname queryParams basePath.
Proof.
  intros _ Hseg Hwild.
  assert (Hc : candidates (Some (add k v t)) pathname
               = candidates (Some t) pathname).
  { unfold candidates. destruct (splitPath pathname) as [|s rest]; [done|].
    cbn [descend]. rewrite <- add_effectiveKey.
    destruct (effectiveKey k) as [|p r] eqn:E;
      [by apply effectiveKey_nonempty in E|].
    cbn in Hseg, Hwild.
    assert (He : edge (add (p :: r) v t) s = edge t s).
    { unfold edge. rewrite add_cons. cbn [prefixes].
      rewrite !lookup_insert_ne by congruence. done. }
    by rewrite He. }
  split; [done|]. unfold matchRoute. by rewrite Hc.
Qed.

Lemma add_elsewhere_witness :
  matchRoute sampleExec
    (Some (add ["b"; "c"] routeABC (add ["a"] routeA emptyTree)))
    "/a/x" tt ""
  = matchRoute sampleExec (Some (add ["a"] routeA emptyTree)) "/a/x" tt "".
Proof.
  refine (proj2 (add_elsewhere sampleExec (add ["a"] routeA emptyTree)
                   ["b"; "c"] routeABC "/a/x" tt "" _ _ _)).
  - repeat constructor.
  - discriminate.
  - discriminate.
Defined.

Lemma descend_find {T} (t : PrefixTree T) segs vs (acc : list T) :
  find t segs = Some vs ->
  exists earlier, descend (Some t) segs acc = earlier ++ vs.
Proof.
  revert t acc. induction segs as [|s rest IH]; intros t acc; [done|].
  cbn [find]. destruct (prefixes t !! s) as [node|] eqn:Hl; [|done].
  rewrite (descend_node _ _ _ _ node) by (by apply edge_literal).
  destruct rest as [|s' rest].
  - intros Hv. exists acc. rewrite Hv. by destruct (tail node).
  - destruct (tail node) as [tl|]; [|done]. apply IH.
Qed.

(** X15: what [find] returns for the segments of a request is collected
    last by the descent, so it is tried first: when the last route that
    [find] returns there is accepted by the external matcher, its result
    is the result of [matchRoute]. *)
Theorem found_route_wins {Query Match}
        (execRouteMatching :
           InvariantRoute -> string -> Query -> string
           -> option (Result Match))
        (t : PrefixTree InvariantRoute)
        (pathname : string) (queryParams : Query) (basePath : string)
        (vs : list InvariantRoute) (r : InvariantRoute)
        (m : Result Match) :
  find t (splitPath pathname) = Some (vs ++ [r]) ->
  execRouteMatching r pathname queryParams basePath = Some m ->
  (exists earlier, candidates (Some t) pathname = earlier ++ vs ++ [r]) /\
  matchRoute execRouteMatching (Some t) pathname queryParams basePath
  = Some m.
Proof.
  intros Hf Hacc.
  destruct (descend_find _ _ _ [] Hf) as [earlier Hc].
  split; [by exists earlier|].
  rewrite matchRoute_firstSuccess. unfold candidates. rewrite Hc.
  rewrite app_assoc, rev_unit. cbn [firstSuccess]. by rewrite Hacc.
Qed.

Lemma found_route_wins_witness :
  matchRoute sampleExec
    (Some (add ["a"; "b"] routeAB (add ["a"] routeA emptyTree)))
    "/a/b" tt ""
  = Some (MkResult routeAB "/a/b").
Proof.
  refine (proj2 (found_route_wins sampleExec
                   (add ["a"; "b"] routeAB (add ["a"] routeA emptyTree))
                   "/a/b" tt "" [] routeAB (MkResult routeAB "/a/b") _ _));
    reflexivity.
Defined.
